(** * SwayFX fader: a shallow embedding of [sway/scripts/fadder.py]

    The script keeps a queue of opacity fades keyed by window identifier, a
    worker loop that advances every queued fade once per frame, and three
    event handlers that decide which fades to request when the focus moves,
    a window appears or a window toggles its floating mode.

    Conventions of the embedding.
    - Python floats are read as exact rationals ([Q]); [==], [<], [<=] are
      the rational comparisons.  Nothing below depends on rounding.
    - The object [self] is the record [Fader]; handlers are computations in
      a state-and-exception monad over [World], which pairs [self] with the
      chronological trace of what the program did to the outside
      ([win.command] calls and warnings printed).
    - [win.command] is the external port.  Whether a call raises is decided
      by an arbitrary oracle [port], a variable of the section.
    - [fade_queue] is a Python dict: insertion ordered, unique keys.  It is
      an association list with the dict's update discipline, so that order
      and key uniqueness are visible (and provable) rather than built in.
    - The worker thread and the event thread exclude each other through
      [fade_lock]; one loop iteration and one [add_fade] are atomic steps. *)

From Stdlib Require Import ZArith QArith Qround Lqa String.
From stdpp Require Import base decidable option list gmap strings.

Local Open Scope Z_scope.

(** ** Configurable settings *)

Definition FRAME_T : Q := 1 # 100.

Definition CON_AC     : Q := 1.
Definition CON_INAC   : Q := 88 # 100.
Definition FLOAT_AC   : Q := 1.
Definition FLOAT_INAC : Q := 88 # 100.
Definition BOT_INAC   : Q := 88 # 100.

Definition FADE_TIME      : Q := 20 # 100.
Definition ALT_FADE_TIME  : Q := 12 # 100.
Definition CON_OUT        : Q := FADE_TIME.
Definition CON_IN         : Q := 15 # 100.
Definition FLOAT_OUT      : Q := ALT_FADE_TIME.
Definition FLOAT_IN       : Q := ALT_FADE_TIME.
Definition BOT_OUT        : Q := ALT_FADE_TIME.
Definition BOT_IN         : Q := ALT_FADE_TIME.
Definition BOT_SWITCH_IN  : Q := FADE_TIME.
Definition BOT_SWITCH_OUT : Q := FADE_TIME.
Definition FLOAT_BOT_OUT  : Q := FADE_TIME.
Definition FLOAT_BOT_IN   : Q := FADE_TIME.

(** ** Numbers as Python compares them *)

Definition Qgtb (a b : Q) : bool := negb (Qle_bool a b).
Definition Qltb (a b : Q) : bool := negb (Qle_bool b a).
Definition Qgeb (a b : Q) : bool := Qle_bool b a.
Definition Qleb (a b : Q) : bool := Qle_bool a b.

(** ** Windows and events *)

(** The attributes of an i3ipc container that the script reads.  [floating]
    is the truth value of the attribute. *)
Record Con := {
  id : Z;
  type : string;
  name : option string;
  floating : bool;
  focused : bool
}.

(** [x.type == "con"] *)
Definition is_con (w : Con) : bool := String.eqb (type w) "con".

(** A window event as delivered to a handler: only [e.container] is read. *)
Record WindowEvent := { container : Con }.

Inductive Event := WINDOW_FOCUS | WINDOW_NEW | WINDOW_FLOATING.

(** ** Fades and the fade queue *)

(** One entry of [fade_queue]: the dict with keys "opacity", "change",
    "target" and "win". *)
Record Fade := {
  opacity : Q;
  change : Q;
  target : Q;
  win : Con
}.

Abbreviation dict := (list (Z * Fade)) (only parsing).

(** [d[k]] as [d.get(k)] *)
Fixpoint dict_get (k : Z) (d : dict) : option Fade :=
  match d with
  | [] => None
  | (k', v) :: d' => if Z.eqb k' k then Some v else dict_get k d'
  end.

(** [d[k] = v]: an existing key keeps its position, a new key goes last. *)
Fixpoint dict_set (k : Z) (v : Fade) (d : dict) : dict :=
  match d with
  | [] => [(k, v)]
  | (k', v') :: d' =>
      if Z.eqb k' k then (k', v) :: d' else (k', v') :: dict_set k v d'
  end.

(** [d.pop(k, None)] (the popped value is discarded by the caller) *)
Fixpoint dict_pop (k : Z) (d : dict) : dict :=
  match d with
  | [] => []
  | (k', v) :: d' => if Z.eqb k' k then d' else (k', v) :: dict_pop k d'
  end.

Definition keys (d : dict) : list Z := d.*1.

(** ** The object and the world *)

Record Fader := {
  floating_windows : gset Z;
  fade_queue : dict;
  fader_running : bool;
  bottom_win : option Con;
  old_win : option Con;
  active_win : option Con
}.

(** What the program does to its environment, in order of occurrence. *)
Inductive IO :=
| Command (w : Con) (v : Q)
    (** [w.command(f"opacity {v:.3f}")] was called; the trace keeps the
        number [v] the call was given, before it is printed to three
        decimals *)
| Warn (who : string + Z) (e : string)
    (** [print(f"[WARN] Failed to set opacity for {who}: {e}")] *).

Record World := { self : Fader; trace : list IO }.

Definition set_floating_windows (x : gset Z) (s : Fader) : Fader :=
  {| floating_windows := x; fade_queue := fade_queue s;
     fader_running := fader_running s; bottom_win := bottom_win s;
     old_win := old_win s; active_win := active_win s |}.
Definition set_fade_queue (x : dict) (s : Fader) : Fader :=
  {| floating_windows := floating_windows s; fade_queue := x;
     fader_running := fader_running s; bottom_win := bottom_win s;
     old_win := old_win s; active_win := active_win s |}.
Definition set_fader_running (x : bool) (s : Fader) : Fader :=
  {| floating_windows := floating_windows s; fade_queue := fade_queue s;
     fader_running := x; bottom_win := bottom_win s;
     old_win := old_win s; active_win := active_win s |}.
Definition set_bottom_win (x : option Con) (s : Fader) : Fader :=
  {| floating_windows := floating_windows s; fade_queue := fade_queue s;
     fader_running := fader_running s; bottom_win := x;
     old_win := old_win s; active_win := active_win s |}.
Definition set_old_win (x : option Con) (s : Fader) : Fader :=
  {| floating_windows := floating_windows s; fade_queue := fade_queue s;
     fader_running := fader_running s; bottom_win := bottom_win s;
     old_win := x; active_win := active_win s |}.
Definition set_active_win (x : option Con) (s : Fader) : Fader :=
  {| floating_windows := floating_windows s; fade_queue := fade_queue s;
     fader_running := fader_running s; bottom_win := bottom_win s;
     old_win := old_win s; active_win := x |}.

(** ** State and exceptions *)

Inductive outcome (A : Type) :=
| Return (a : A)
| Raise (e : string).
Arguments Return {A} a.
Arguments Raise {A} e.

Definition M (A : Type) : Type := World -> outcome A * World.

Definition ret {A} (a : A) : M A := fun w => (Return a, w).

Definition bind {A B} (m : M A) (k : A -> M B) : M B :=
  fun w =>
    match m w with
    | (Return a, w') => k a w'
    | (Raise e, w') => (Raise e, w')
    end.

Definition raise {A} (e : string) : M A := fun w => (Raise e, w).

(** [try: m  except Exception as e: h(e)] *)
Definition try_except {A} (m : M A) (h : string -> M A) : M A :=
  fun w =>
    match m w with
    | (Return a, w') => (Return a, w')
    | (Raise e, w') => h e w'
    end.

(** Read a field of [self]. *)
Definition gets {A} (f : Fader -> A) : M A := fun w => (Return (f (self w)), w).

(** Assign a field of [self]. *)
Definition modify (f : Fader -> Fader) : M unit :=
  fun w => (Return tt, {| self := f (self w); trace := trace w |}).

Definition emit (ev : IO) : M unit :=
  fun w => (Return tt, {| self := self w; trace := trace w ++ [ev] |}).

Notation "x <- m ;; k" := (bind m (fun x => k))
  (at level 100, m at next level, k at level 200, right associativity).
Notation "m ;; k" := (bind m (fun _ => k))
  (at level 100, k at level 200, right associativity).

(** [x.attr] where [x] may be [None]. *)
Definition attr {A} (x : option Con) (f : Con -> A) : M A :=
  match x with
  | Some c => ret (f c)
  | None => raise "AttributeError"
  end.

(** [for x in l: body(x)] *)
Fixpoint for_each {A} (l : list A) (body : A -> M unit) : M unit :=
  match l with
  | [] => ret tt
  | x :: l' => body x ;; for_each l' body
  end.

Section WithPort.

(** The window manager's side of [win.command]: given what has happened so
    far, the window and the opacity, [Some e] when the call raises the
    [Exception] [e]. *)
Variable port : list IO -> Con -> Q -> option string.

(** [win.command(f"opacity {opacity:.3f}")] *)
Definition command (w : Con) (v : Q) : M unit :=
  fun s =>
    let s' := {| self := self s; trace := trace s ++ [Command w v] |} in
    match port (trace s) w v with
    | None => (Return tt, s')
    | Some e => (Raise e, s')
    end.

(** [win.name or win.id] *)
Definition name_or_id (w : Con) : string + Z :=
  match name w with
  | Some n => if String.eqb n "" then inr (id w) else inl n
  | None => inr (id w)
  end.

(** ** Helper function *)

Definition change_opacity (w : Con) (v : Q) : M unit :=
  try_except (command w v) (fun e => emit (Warn (name_or_id w) e)).

(** ** Main class *)

(** The fields as [__init__] sets them before the tree is read. *)
Definition new_Fader : Fader :=
  {| floating_windows := ∅; fade_queue := []; fader_running := false;
     bottom_win := None; old_win := None; active_win := None |}.

Definition init_window (w : Con) : M unit :=
  if negb (String.eqb (type w) "con" || String.eqb (type w) "floating_con")
  then ret tt
  else if floating w then
    fw <- gets floating_windows ;;
    modify (set_floating_windows ({[ id w ]} ∪ fw)) ;;
    if focused w then
      modify (set_active_win (Some w)) ;; change_opacity w FLOAT_AC
    else change_opacity w FLOAT_INAC
  else
    if focused w then
      modify (set_active_win (Some w)) ;; change_opacity w CON_AC
    else change_opacity w CON_INAC.

(** [descendants] is [self.ipc.get_tree().descendants()]. *)
Definition init_existing_windows (descendants : list Con) : M unit :=
  for_each descendants init_window.

Definition start_fader : M unit :=
  modify (set_fader_running true).

Definition add_fade (w : option Con) (start tgt : Q) (duration : option Q)
  : M unit :=
  match w with
  | None => ret tt
  | Some w =>
      match duration with
      | None => change_opacity w tgt
      | Some d =>
          if Qeq_bool d 0 || Qeq_bool start tgt then change_opacity w tgt
          else
            let chg := ((FRAME_T / d) * (tgt - start))%Q in
            q <- gets fade_queue ;;
            modify (set_fade_queue
                      (dict_set (id w)
                         {| opacity := start; change := chg;
                            target := tgt; win := w |} q)) ;;
            running <- gets fader_running ;;
            if negb running then start_fader else ret tt
      end
  end.

(** The test [done] of the loop, on the entry after its opacity moved. *)
Definition fade_done (f : Fade) : bool :=
  (Qgtb (change f) 0 && Qgeb (opacity f) (target f))
  || (Qltb (change f) 0 && Qleb (opacity f) (target f)).

(** [f["opacity"] += f["change"]] *)
Definition advance (f : Fade) : Fade :=
  {| opacity := (opacity f + change f)%Q; change := change f;
     target := target f; win := win f |}.

(** The body of [for win_id, f in list(self.fade_queue.items())].  [f] is
    the very dict stored in the queue, so the increment is written back
    under its key; the identifiers of finished fades are returned. *)
Fixpoint fade_pass (items : list (Z * Fade)) (finished : list Z)
  : M (list Z) :=
  match items with
  | [] => ret finished
  | (win_id, f) :: rest =>
      let f' := advance f in
      q <- gets fade_queue ;;
      modify (set_fade_queue (dict_set win_id f' q)) ;;
      if fade_done f' then
        change_opacity (win f') (target f') ;;
        fade_pass rest (finished ++ [win_id])
      else
        change_opacity (win f') (opacity f') ;;
        fade_pass rest finished
  end.

(** One iteration of [while True] in [fader_loop], lock held.  The result
    says whether the loop goes on; on [break] the thread clears
    [fader_running] and ends. *)
Definition fader_iteration : M bool :=
  q <- gets fade_queue ;;
  match q with
  | [] => modify (set_fader_running false) ;; ret false
  | _ :: _ =>
      finished <- fade_pass q [] ;;
      for_each finished (fun fid =>
        q' <- gets fade_queue ;;
        modify (set_fade_queue (dict_pop fid q'))) ;;
      ret true
  end.

(** [fader_loop], cut after at most [ticks] iterations. *)
Fixpoint fader_loop (ticks : nat) : M unit :=
  match ticks with
  | O => ret tt
  | S n =>
      go_on <- fader_iteration ;;
      if go_on then fader_loop n else ret tt
  end.

Definition on_window_focus (e : WindowEvent) : M unit :=
  a <- gets active_win ;;
  match a with
  | None => ret tt
  | Some old =>
      if Z.eqb (id old) (id (container e)) then ret tt
      else
        let new := container e in
        (if is_con old && is_con new then
           add_fade (Some new) CON_INAC CON_AC (Some CON_IN) ;;
           add_fade (Some old) CON_AC CON_INAC (Some CON_OUT)
         else if is_con old && negb (is_con new) then
           add_fade (Some new) FLOAT_INAC FLOAT_AC (Some FLOAT_IN) ;;
           add_fade (Some old) CON_AC BOT_INAC (Some BOT_OUT) ;;
           modify (set_bottom_win (Some old))
         else if negb (is_con old) && is_con new then
           add_fade (Some old) FLOAT_AC FLOAT_INAC (Some FLOAT_BOT_OUT) ;;
           b <- gets bottom_win ;;
           match b with
           | None => add_fade (Some new) CON_INAC CON_AC (Some CON_IN)
           | Some bot =>
               if negb (Z.eqb (id new) (id bot)) then
                 add_fade (Some bot) BOT_INAC CON_INAC (Some BOT_SWITCH_OUT) ;;
                 add_fade (Some new) CON_INAC CON_AC (Some BOT_SWITCH_IN) ;;
                 modify (set_bottom_win (Some new))
               else
                 add_fade (Some bot) BOT_INAC CON_AC (Some BOT_IN)
           end
         else
           add_fade (Some old) FLOAT_AC FLOAT_INAC (Some FLOAT_OUT) ;;
           add_fade (Some new) FLOAT_INAC FLOAT_AC (Some FLOAT_IN)) ;;
        modify (set_active_win (Some new))
  end.

Definition on_window_new (e : WindowEvent) : M unit :=
  a <- gets active_win ;;
  match a with
  | Some act =>
      if is_con act then change_opacity act CON_INAC
      else change_opacity act FLOAT_INAC
  | None => ret tt
  end ;;
  b <- gets bottom_win ;;
  match b with
  | Some bot => change_opacity bot CON_INAC
  | None =>
      match a with
      | Some act =>
          if is_con act then
            modify (set_bottom_win (Some act)) ;;
            change_opacity act CON_INAC
          else ret tt
      | None => ret tt
      end
  end ;;
  change_opacity (container e) CON_AC ;;
  a' <- gets active_win ;;
  modify (set_old_win a') ;;
  modify (set_active_win (Some (container e))).

Definition on_window_floating (e : WindowEvent) : M unit :=
  let cid := id (container e) in
  fw <- gets floating_windows ;;
  (if negb (bool_decide (cid ∈ fw)) then
     modify (set_floating_windows ({[ cid ]} ∪ fw)) ;;
     a <- gets active_win ;;
     aid <- attr a id ;;
     if negb (Z.eqb aid cid) then change_opacity (container e) FLOAT_INAC
     else
       o <- gets old_win ;;
       b <- gets bottom_win ;;
       match o, b with
       | Some old, Some _ =>
           (if is_con old then modify (set_bottom_win (Some old))
            else ret tt) ;;
           b' <- gets bottom_win ;;
           match b' with
           | Some bot => change_opacity bot BOT_INAC
           | None => raise "AttributeError"
           end
       | _, _ => ret tt
       end ;;
       change_opacity (container e) FLOAT_AC
   else
     modify (set_floating_windows (fw ∖ {[ cid ]})) ;;
     a <- gets active_win ;;
     aid <- attr a id ;;
     if negb (Z.eqb aid cid) then change_opacity (container e) CON_INAC
     else
       o <- gets old_win ;;
       match o with
       | Some old =>
           if is_con old then change_opacity old CON_INAC else ret tt
       | None => ret tt
       end ;;
       match a with
       | Some act => change_opacity act CON_AC
       | None => raise "AttributeError"
       end) ;;
  modify (set_active_win (Some (container e))).

(** The handlers as [__init__] registers them with [self.ipc.on]. *)
Definition dispatch (ev : Event) (e : WindowEvent) : M unit :=
  match ev with
  | WINDOW_FOCUS => on_window_focus e
  | WINDOW_NEW => on_window_new e
  | WINDOW_FLOATING => on_window_floating e
  end.

(** [Fader()] up to the call of [self.ipc.main()]. *)
Definition init (descendants : list Con) : World :=
  snd (init_existing_windows descendants
         {| self := new_Fader; trace := [] |}).

End WithPort.

(** ** Vocabulary of the properties *)

(** The opacity commands of a trace, in order, and those sent to the window
    with identifier [k]. *)
Definition commands (tr : list IO) : list (Con * Q) :=
  omap (fun ev => match ev with
                  | Command w v => Some (w, v)
                  | Warn _ _ => None
                  end) tr.

Definition commands_for (k : Z) (tr : list IO) : list Q :=
  (filter (fun c => id c.1 = k) (commands tr)).*2.

(** A port that never raises. *)
Definition reliable : list IO -> Con -> Q -> option string :=
  fun _ _ _ => None.

(** What a call of [change_opacity] appends to the trace after the command
    itself: nothing, or the warning of the [except] branch. *)
Definition caught (port : list IO -> Con -> Q -> option string)
  (tr : list IO) (w : Con) (v : Q) : list IO :=
  match port tr w v with
  | None => []
  | Some e => [Warn (name_or_id w) e]
  end.

(** A queue as a Python dict holding fades under their window's identifier:
    no key twice, every entry filed under [win.id]. *)
Definition wf_queue (q : dict) : Prop :=
  NoDup (keys q) /\ Forall (fun kf => id (win kf.2) = kf.1) q.

(** The number of entries filed under [k]. *)
Definition entries (k : Z) (q : dict) : nat :=
  length (filter (fun kf => kf.1 = k) q).

(** What one loop iteration does to one entry: [None] when it is removed. *)
Definition fade_tick (f : Fade) : option Fade :=
  let f' := advance f in
  if fade_done f' then None else Some f'.

(** The command one loop iteration issues for an entry. *)
Definition issued (f : Fade) : Con * Q :=
  let f' := advance f in
  (win f', if fade_done f' then target f' else opacity f').

Definition advance_entry (kf : Z * Fade) : Z * Fade := (kf.1, advance kf.2).

(** What one loop iteration does to the whole queue. *)
Definition tick_queue (q : dict) : dict :=
  filter (fun kf => fade_done kf.2 = false) (advance_entry <$> q).

(** The queue after the two loops of one iteration, as they run. *)
Definition loop_queue (q : dict) : dict :=
  foldl (fun q' k => dict_pop k q')
    (foldl (fun q' kf => dict_set kf.1 (advance kf.2) q') q q)
    (filter (fun kf => fade_done (advance kf.2) = true) q).*1.

(** An entry after [n] iterations. *)
Fixpoint fade_after (n : nat) (f : Fade) : option Fade :=
  match n with
  | O => Some f
  | S m => fade_after m f ≫= fade_tick
  end.

(** The entry [add_fade] files for a request that is a real fade. *)
Definition new_fade (w : Con) (start tgt d : Q) : Fade :=
  {| opacity := start; change := ((FRAME_T / d) * (tgt - start))%Q;
     target := tgt; win := w |}.

(** A request that collapses to one immediate command:
    [not duration or start == target]. *)
Definition immediate (start tgt : Q) (duration : option Q) : Prop :=
  match duration with
  | None => True
  | Some d => d == 0 \/ start == tgt
  end.

(** The program's steps: the event thread runs one handler, or the worker
    thread, when it exists, runs one iteration of its loop. *)
Inductive step (port : list IO -> Con -> Q -> option string)
  : World -> World -> Prop :=
| step_event (ev : Event) (e : WindowEvent) (W : World) :
    step port W (snd (dispatch port ev e W))
| step_tick (W : World) :
    fader_running (self W) = true ->
    step port W (snd (fader_iteration port W)).

Inductive reachable (port : list IO -> Con -> Q -> option string)
  : World -> Prop :=
| reach_init (descendants : list Con) :
    reachable port (init port descendants)
| reach_step (W W' : World) :
    reachable port W -> step port W W' -> reachable port W'.

(** [bottom_win] is [None] or a container of type "con". *)
Definition bottom_tiled (s : Fader) : Prop :=
  match bottom_win s with
  | None => True
  | Some b => type b = "con"
  end.

(** [m] keeps the property [P] of [self], whatever it returns or raises. *)
Definition preserves {A} (P : Fader -> Prop) (m : M A) : Prop :=
  forall W, P (self W) -> P (self (m W).2).

(** ** Vocabulary of the further properties *)

(** [m] returns, whatever the world it starts from. *)
Definition returns {A} (m : M A) : Prop :=
  forall W, exists a, (m W).1 = Return a.

(** [floating_windows] after a floating event for the identifier [cid]. *)
Definition toggled (cid : Z) (fw : gset Z) : gset Z :=
  if bool_decide (cid ∈ fw) then fw ∖ {[ cid ]} else {[ cid ]} ∪ fw.

(** What [on_window_new] sends, given the active and the bottom window it
    finds and the new container. *)
Definition new_window_commands (a b : option Con) (c : Con)
  : list (Con * Q) :=
  match a with
  | Some act => [(act, if is_con act then CON_INAC else FLOAT_INAC)]
  | None => []
  end
  ++ match b with
     | Some bot => [(bot, CON_INAC)]
     | None =>
         match a with
         | Some act => if is_con act then [(act, CON_INAC)] else []
         | None => []
         end
     end
  ++ [(c, CON_AC)].

(** The bottom window [on_window_new] leaves. *)
Definition new_window_bottom (a b : option Con) : option Con :=
  match b with
  | Some bot => Some bot
  | None =>
      match a with
      | Some act => if is_con act then Some act else None
      | None => None
      end
  end.

(** The windows [init_existing_windows] does not skip. *)
Definition eligible (w : Con) : bool :=
  String.eqb (type w) "con" || String.eqb (type w) "floating_con".

(** The opacity [init_existing_windows] gives a window. *)
Definition baseline (w : Con) : Q :=
  if floating w then (if focused w then FLOAT_AC else FLOAT_INAC)
  else (if focused w then CON_AC else CON_INAC).

(** Every queued fade has a rate other than zero. *)
Definition live_queue (q : dict) : Prop :=
  Forall (fun kf => ~ change kf.2 == 0) q.

(** An entry of the queue after [n] iterations, with its key. *)
Definition entry_after (n : nat) (kf : Z * Fade) : option (Z * Fade) :=
  (fun g => (kf.1, g)) <$> fade_after n kf.2.

(** ** Sample data for the examples *)

Definition win_a : Con :=
  {| id := 1; type := "con"; name := Some "A";
     floating := false; focused := true |}.
Definition win_b : Con :=
  {| id := 2; type := "con"; name := Some "B";
     floating := false; focused := false |}.
Definition win_f : Con :=
  {| id := 3; type := "floating_con"; name := None;
     floating := true; focused := false |}.

(** A port on which every command for window 2 raises. *)
Definition flaky : list IO -> Con -> Q -> option string :=
  fun _ w _ => if Z.eqb (id w) 2 then Some "window gone" else None.

Definition win_c : Con :=
  {| id := 4; type := "con"; name := Some "C";
     floating := false; focused := true |}.

Definition win_g : Con :=
  {| id := 5; type := "floating_con"; name := Some "G";
     floating := true; focused := false |}.

Definition world0 : World := {| self := new_Fader; trace := [] |}.

(** Started with A focused, B and the floating F on screen. *)
Definition world_a : World := init flaky [win_a; win_b; win_f].

(** Then the focus moved to B: A and B are fading. *)
Definition world_ab : World :=
  (dispatch flaky WINDOW_FOCUS {| container := win_b |} world_a).2.

(** Or the focus moved to F: A is the bottom window. *)
Definition world_af : World :=
  (dispatch flaky WINDOW_FOCUS {| container := win_f |} world_a).2.

(** Or a window C appeared: A is the previous and the bottom window. *)
Definition world_ac : World :=
  (dispatch flaky WINDOW_NEW {| container := win_c |} world_a).2.

(** * Properties *)

(** ** The monad *)

Lemma bind_assoc {A B C} (m : M A) (f : A -> M B) (g : B -> M C) (W : World) :
  bind (bind m f) g W = bind m (fun x => bind (f x) g) W.
Proof. unfold bind. destruct (m W) as [[a|e] W']; reflexivity. Qed.

Lemma bind_Return {A B} (m : M A) (k : A -> M B) (W W' : World) (a : A) :
  m W = (Return a, W') -> bind m k W = k a W'.
Proof. unfold bind. intros ->. reflexivity. Qed.

Lemma commands_app (tr1 tr2 : list IO) :
  commands (tr1 ++ tr2) = commands tr1 ++ commands tr2.
Proof. apply omap_app. Qed.

Lemma commands_for_app (k : Z) (tr1 tr2 : list IO) :
  commands_for k (tr1 ++ tr2) = commands_for k tr1 ++ commands_for k tr2.
Proof.
  unfold commands_for. rewrite commands_app, filter_app, fmap_app. reflexivity.
Qed.

(** ** The queue as a dict *)

Lemma dict_get_set_eq (k : Z) (v : Fade) (d : dict) :
  dict_get k (dict_set k v d) = Some v.
Proof.
  induction d as [|[k' v'] d IH]; cbn.
  - rewrite Z.eqb_refl. reflexivity.
  - destruct (Z.eqb k' k) eqn:E; cbn; rewrite E; [reflexivity|exact IH].
Qed.

Lemma dict_get_set_ne (k k' : Z) (v : Fade) (d : dict) :
  k <> k' -> dict_get k' (dict_set k v d) = dict_get k' d.
Proof.
  intros Hne. induction d as [|[k0 v0] d IH]; cbn.
  - apply Z.eqb_neq in Hne. rewrite Hne. reflexivity.
  - destruct (Z.eqb k0 k) eqn:E; cbn.
    + apply Z.eqb_eq in E. subst k0. apply Z.eqb_neq in Hne.
      rewrite Hne. reflexivity.
    + rewrite IH. reflexivity.
Qed.

Lemma dict_get_None (k : Z) (d : dict) :
  dict_get k d = None <-> k ∉ keys d.
Proof.
  unfold keys. induction d as [|[k' v] d IH]; cbn.
  - split; [intros _; apply not_elem_of_nil|reflexivity].
  - rewrite not_elem_of_cons. destruct (Z.eqb k' k) eqn:E.
    + apply Z.eqb_eq in E. split; [discriminate|]. intros [H _]. congruence.
    + apply Z.eqb_neq in E. rewrite IH. split; [intros H; split; congruence|tauto].
Qed.

Lemma dict_get_None_inv (k : Z) (d : dict) :
  dict_get k d <> None -> k ∈ keys d.
Proof.
  intros H. destruct (decide (k ∈ keys d)) as [Hin|Hnot]; [exact Hin|].
  apply dict_get_None in Hnot. contradiction.
Qed.

Lemma keys_dict_set (k : Z) (v : Fade) (d : dict) :
  keys (dict_set k v d) = if bool_decide (k ∈ keys d) then keys d else keys d ++ [k].
Proof.
  unfold keys. induction d as [|[k' v'] d IH]; cbn.
  - rewrite bool_decide_eq_false_2 by apply not_elem_of_nil. reflexivity.
  - destruct (Z.eqb k' k) eqn:E; cbn.
    + apply Z.eqb_eq in E. subst k'.
      rewrite bool_decide_eq_true_2 by apply list_elem_of_here. reflexivity.
    + apply Z.eqb_neq in E. rewrite IH.
      destruct (bool_decide (k ∈ d.*1)) eqn:B.
      * apply bool_decide_eq_true_1 in B.
        rewrite bool_decide_eq_true_2 by (apply list_elem_of_further; exact B).
        reflexivity.
      * apply bool_decide_eq_false_1 in B.
        rewrite bool_decide_eq_false_2; [reflexivity|].
        rewrite elem_of_cons. intros [H|H]; [congruence|contradiction].
Qed.

Lemma NoDup_dict_set (k : Z) (v : Fade) (d : dict) :
  NoDup (keys d) -> NoDup (keys (dict_set k v d)).
Proof.
  intros Hd. rewrite keys_dict_set. case_bool_decide as Hk; [exact Hd|].
  apply NoDup_app. split; [exact Hd|]. split.
  - intros x Hx Hx'. apply list_elem_of_singleton in Hx'. subst x. contradiction.
  - apply NoDup_singleton.
Qed.

Lemma entries_absent (k : Z) (d : dict) :
  k ∉ keys d -> entries k d = 0%nat.
Proof.
  unfold entries, keys. induction d as [|[k' v] d IH]; [reflexivity|].
  rewrite fmap_cons, not_elem_of_cons. cbn [fst]. intros [Hne Hd].
  rewrite filter_cons_False by (cbn; congruence). apply IH, Hd.
Qed.

Lemma entries_present (k : Z) (d : dict) :
  NoDup (keys d) -> k ∈ keys d -> entries k d = 1%nat.
Proof.
  unfold entries, keys. induction d as [|[k' v] d IH].
  - intros _ H. apply elem_of_nil in H. contradiction.
  - rewrite fmap_cons, NoDup_cons, elem_of_cons. cbn [fst].
    intros [Hk' Hd] [->|Hin].
    + rewrite filter_cons_True by reflexivity. cbn [length].
      f_equal. apply (entries_absent k' d Hk').
    + rewrite filter_cons_False; [apply IH; assumption|].
      cbn. intros ->. contradiction.
Qed.

Lemma wf_queue_dict_set (k : Z) (v : Fade) (d : dict) :
  wf_queue d -> id (win v) = k -> wf_queue (dict_set k v d).
Proof.
  intros [Hnd Hall] Hk. split; [apply NoDup_dict_set, Hnd|].
  clear Hnd. induction d as [|[k' v'] d IH]; cbn.
  - constructor; [exact Hk|constructor].
  - apply Forall_cons in Hall as [Hh Ht].
    destruct (Z.eqb k' k) eqn:E.
    + apply Z.eqb_eq in E. subst k'. constructor; [exact Hk|exact Ht].
    + constructor; [exact Hh|apply IH, Ht].
Qed.

Lemma dict_set_app_fresh (k : Z) (v v0 : Fade) (pre rest : dict) :
  k ∉ keys pre ->
  dict_set k v (pre ++ (k, v0) :: rest) = pre ++ (k, v) :: rest.
Proof.
  unfold keys. induction pre as [|[k' v'] pre IH]; cbn [app dict_set].
  - intros _. rewrite Z.eqb_refl. reflexivity.
  - rewrite fmap_cons, not_elem_of_cons. cbn [fst]. intros [Hne Hpre].
    apply not_eq_sym, Z.eqb_neq in Hne. rewrite Hne, IH by exact Hpre.
    reflexivity.
Qed.

(** Writing every advanced entry back under its own key, as the pass over
    the snapshot does, advances the queue entry by entry. *)
Lemma foldl_set_advance (items : dict) :
  forall pre : dict,
    NoDup (keys (pre ++ items)) ->
    foldl (fun q kf => dict_set kf.1 (advance kf.2) q) (pre ++ items) items =
    pre ++ (advance_entry <$> items).
Proof.
  unfold keys. induction items as [|[k f] items IH]; intros pre Hnd.
  - reflexivity.
  - cbn [foldl fst snd]. rewrite dict_set_app_fresh.
    + rewrite (cons_middle _ pre items), app_assoc.
      rewrite IH.
      * rewrite <- app_assoc. reflexivity.
      * rewrite <- app_assoc. cbn [app].
        rewrite fmap_app, fmap_cons in *. exact Hnd.
    + rewrite fmap_app, fmap_cons in Hnd. apply NoDup_app in Hnd as (_ & Hd & _).
      intros Hin. apply (Hd k Hin). apply list_elem_of_here.
Qed.

Lemma foldl_pop_cons_fresh (k : Z) (f : Fade) (fin : list Z) :
  forall q : dict,
    k ∉ fin ->
    foldl (fun q k => dict_pop k q) ((k, f) :: q) fin =
    (k, f) :: foldl (fun q k => dict_pop k q) q fin.
Proof.
  induction fin as [|k' fin IH]; intros q Hk; [reflexivity|].
  apply not_elem_of_cons in Hk as [Hne Hk].
  cbn [foldl dict_pop]. apply Z.eqb_neq in Hne. rewrite Hne.
  apply IH, Hk.
Qed.

(** Popping the keys of the finished entries leaves the unfinished ones. *)
Lemma foldl_pop_finished (q : dict) :
  NoDup (keys q) ->
  foldl (fun q k => dict_pop k q) (advance_entry <$> q)
    (filter (fun kf => fade_done (advance kf.2) = true) q).*1 =
  tick_queue q.
Proof.
  unfold keys, tick_queue. induction q as [|[k f] q IH]; [reflexivity|].
  rewrite !fmap_cons, NoDup_cons. cbn [fst]. intros [Hk Hnd].
  change (advance_entry (k, f)) with (k, advance f).
  destruct (fade_done (advance f)) eqn:Hd.
  - rewrite filter_cons_True by exact Hd.
    rewrite filter_cons_False by (cbn; rewrite Hd; discriminate).
    cbn [fmap list_fmap fst foldl dict_pop]. rewrite Z.eqb_refl.
    apply IH, Hnd.
  - rewrite filter_cons_False by (cbn; rewrite Hd; discriminate).
    rewrite filter_cons_True by exact Hd.
    rewrite foldl_pop_cons_fresh; [f_equal; apply IH, Hnd|].
    intros Hin. apply Hk. apply list_elem_of_fmap in Hin as (x & -> & Hx).
    apply list_elem_of_fmap. exists x. split; [reflexivity|].
    apply list_elem_of_filter in Hx. tauto.
Qed.

Lemma keys_tick_queue (q : dict) : sublist (keys (tick_queue q)) (keys q).
Proof.
  unfold keys, tick_queue.
  assert (H : (advance_entry <$> q).*1 = q.*1).
  { rewrite <- list_fmap_compose. apply list_fmap_ext. intros _ [k f] _. reflexivity. }
  rewrite <- H. apply fmap_sublist, sublist_filter.
Qed.

Lemma wf_tick_queue (q : dict) : wf_queue q -> wf_queue (tick_queue q).
Proof.
  intros [Hnd Hall]. split.
  - eapply sublist_NoDup; [exact Hnd|apply keys_tick_queue].
  - unfold tick_queue. apply Forall_forall. intros [k f] Hin.
    apply list_elem_of_filter in Hin as [_ Hin].
    apply list_elem_of_fmap in Hin as ([k0 f0] & [= -> ->] & Hin).
    rewrite Forall_forall in Hall. apply (Hall _ Hin).
Qed.

(** What one iteration does to the entry under [k]. *)
Lemma dict_get_tick_queue (k : Z) (q : dict) :
  NoDup (keys q) ->
  dict_get k (tick_queue q) = dict_get k q ≫= fade_tick.
Proof.
  unfold keys, tick_queue. induction q as [|[k' f] q IH]; [reflexivity|].
  rewrite !fmap_cons, NoDup_cons. cbn [fst dict_get]. intros [Hk Hnd].
  change (advance_entry (k', f)) with (k', advance f).
  destruct (Z.eqb k' k) eqn:E.
  - apply Z.eqb_eq in E. subst k'. cbn [mbind option_bind]. unfold fade_tick.
    destruct (fade_done (advance f)) eqn:Hd.
    + rewrite filter_cons_False by (cbn; rewrite Hd; discriminate).
      apply dict_get_None. intros Hin. apply Hk.
      eapply elem_of_sublist; [exact Hin|apply keys_tick_queue].
    + rewrite filter_cons_True by exact Hd. cbn. rewrite Z.eqb_refl. reflexivity.
  - destruct (fade_done (advance f)) eqn:Hd.
    + rewrite filter_cons_False by (cbn; rewrite Hd; discriminate).
      apply IH, Hnd.
    + rewrite filter_cons_True by exact Hd. cbn [dict_get]. rewrite E.
      apply IH, Hnd.
Qed.

Local Open Scope Q_scope.

(** ** The arithmetic of a fade *)

Lemma advance_iter (n : nat) (f : Fade) :
  let g := Nat.iter n advance f in
  change g = change f /\ target g = target f /\ win g = win f
  /\ opacity g == opacity f + inject_Z (Z.of_nat n) * change f.
Proof.
  cbv zeta. induction n as [|n (Hc & Ht & Hw & Ho)].
  - cbn. repeat split. ring.
  - rewrite Nat.iter_succ. cbn [advance change target win opacity].
    repeat split; try assumption.
    rewrite Ho, Hc, Nat2Z.inj_succ. unfold Z.succ. rewrite inject_Z_plus. ring.
Qed.

Lemma fade_done_true (f : Fade) :
  fade_done f = true <->
  (0 < change f /\ target f <= opacity f) \/ (change f < 0 /\ opacity f <= target f).
Proof.
  unfold fade_done, Qgtb, Qltb, Qgeb, Qleb.
  rewrite orb_true_iff, !andb_true_iff, !negb_true_iff, !Qle_bool_iff.
  rewrite <- !not_true_iff_false, !Qle_bool_iff.
  split; (intros [[H1 H2]|[H1 H2]]; [left|right]; split; try assumption).
  - apply Qnot_le_lt, H1.
  - apply Qnot_le_lt, H1.
  - apply Qlt_not_le, H1.
  - apply Qlt_not_le, H1.
Qed.

Lemma fade_after_Some (n : nat) (f g : Fade) :
  fade_after n f = Some g -> g = Nat.iter n advance f.
Proof.
  revert g. induction n as [|n IH]; intros g; cbn [fade_after].
  - intros [= <-]. reflexivity.
  - destruct (fade_after n f) as [h|]; [|discriminate]. cbn [mbind option_bind]. unfold fade_tick.
    destruct (fade_done (advance h)); [discriminate|]. intros [= <-].
    rewrite Nat.iter_succ, (IH h eq_refl). reflexivity.
Qed.

Lemma fade_after_alive (n : nat) (f : Fade) :
  (forall i, (1 <= i <= n)%nat -> fade_done (Nat.iter i advance f) = false) ->
  fade_after n f = Some (Nat.iter n advance f).
Proof.
  induction n as [|n IH]; intros Ha; [reflexivity|].
  cbn [fade_after]. rewrite IH by (intros i Hi; apply Ha; lia).
  cbn [mbind option_bind]. unfold fade_tick. rewrite <- Nat.iter_succ.
  rewrite Ha by lia. reflexivity.
Qed.

Lemma fade_after_done (n : nat) (f : Fade) :
  fade_done (Nat.iter (S n) advance f) = true -> fade_after (S n) f = None.
Proof.
  intros Hd. cbn [fade_after].
  destruct (fade_after n f) as [g|] eqn:E; [|reflexivity].
  apply fade_after_Some in E. subst g. cbn [mbind option_bind]. unfold fade_tick.
  rewrite <- Nat.iter_succ, Hd. reflexivity.
Qed.

Lemma fade_after_gone (n m : nat) (f : Fade) :
  (n <= m)%nat -> fade_after n f = None -> fade_after m f = None.
Proof.
  induction 1 as [|m _ IH]; [tauto|]. intros H. cbn [fade_after].
  rewrite (IH H). reflexivity.
Qed.

(** An entry that is gone after [n] iterations was removed by one of them. *)
Lemma fade_after_first_gone (n : nat) (f : Fade) :
  fade_after n f = None ->
  exists N, (forall m, (m < N)%nat -> is_Some (fade_after m f))
            /\ fade_after N f = None.
Proof.
  induction n as [|n IH]; [discriminate|]. intros Hn.
  destruct (fade_after n f) as [g|] eqn:E; [|apply IH; reflexivity].
  exists (S n). split; [|exact Hn]. intros m Hm.
  destruct (fade_after m f) as [h|] eqn:Em; [eexists; reflexivity|].
  rewrite (fade_after_gone m n f) in E by (lia || exact Em). discriminate.
Qed.

(** Every fade with a rate other than zero finishes. *)
Lemma fade_finishes (f : Fade) :
  ~ change f == 0 -> exists n, fade_done (Nat.iter (S n) advance f) = true.
Proof.
  intros Hc.
  set (x := (target f - opacity f) / change f).
  exists (Z.to_nat (Qceiling x)).
  destruct (advance_iter (S (Z.to_nat (Qceiling x))) f) as (Ec & Et & _ & Eo).
  apply fade_done_true. rewrite Ec, Et, Eo.
  assert (Hx : x <= inject_Z (Z.of_nat (S (Z.to_nat (Qceiling x))))).
  { eapply Qle_trans; [apply Qle_ceiling|]. rewrite <- Zle_Qle. lia. }
  assert (Hxc : x * change f == target f - opacity f).
  { unfold x. field. exact Hc. }
  destruct (Q_dec (change f) 0) as [[Hneg|Hpos]|Hz]; [right|left|contradiction];
    (split; [assumption|]); nra.
Qed.

(** A fade filed by [add_fade] for a positive duration is finished at
    iteration [i] exactly when [i] frames cover the duration. *)
Lemma new_fade_done_iff (w : Con) (s t d : Q) (i : nat) :
  0 < d -> ~ s == t ->
  fade_done (Nat.iter i advance (new_fade w s t d)) = true <->
  (Qceiling (d / FRAME_T) <= Z.of_nat i)%Z.
Proof.
  intros Hd Hst.
  destruct (advance_iter i (new_fade w s t d)) as (Ec & Et & _ & Eo).
  rewrite fade_done_true, Ec, Et, Eo. cbn [new_fade change target opacity].
  set (n := inject_Z (Z.of_nat i)).
  assert (Hn : d / FRAME_T <= n <-> (Qceiling (d / FRAME_T) <= Z.of_nat i)%Z).
  { split; intros H.
    - apply Qceiling_resp_le in H. unfold n in H. rewrite Qceiling_Z in H. exact H.
    - eapply Qle_trans; [apply Qle_ceiling|]. unfold n. rewrite <- Zle_Qle. exact H. }
  rewrite <- Hn. clear Hn.
  assert (HT : 0 < FRAME_T) by reflexivity.
  set (r := FRAME_T / d).
  assert (Hr : r * d == FRAME_T) by (unfold r; field; lra).
  assert (Hr0 : 0 < r) by (apply Qlt_shift_div_l; lra).
  assert (Hq : d / FRAME_T <= n <-> 1 <= n * r).
  { split; intros H.
    - assert (Hu : d == d / FRAME_T * FRAME_T) by (field; lra).
      set (u := d / FRAME_T) in *. nra.
    - apply Qle_shift_div_r; [exact HT|]. nra. }
  rewrite Hq. clear Hq.
  destruct (Q_dec s t) as [[Hlt|Hgt]|Heq]; [| |contradiction].
  - split.
    + intros [[_ H]|[H _]]; nra.
    + intros H. left. split; nra.
  - split.
    + intros [[H _]|[_ H]]; nra.
    + intros H. right. split; nra.
Qed.

Local Open Scope Z_scope.

(** ** Properties kept by every computation built from kept steps *)

Lemma preserves_ret {A} (P : Fader -> Prop) (a : A) : preserves P (ret a).
Proof. intros W H. exact H. Qed.

Lemma preserves_raise {A} (P : Fader -> Prop) (e : string) :
  preserves P (@raise A e).
Proof. intros W H. exact H. Qed.

Lemma preserves_gets {A} (P : Fader -> Prop) (f : Fader -> A) :
  preserves P (gets f).
Proof. intros W H. exact H. Qed.

Lemma preserves_attr {A} (P : Fader -> Prop) (x : option Con) (f : Con -> A) :
  preserves P (attr x f).
Proof. destruct x; intros W H; exact H. Qed.

Lemma preserves_modify (P : Fader -> Prop) (f : Fader -> Fader) :
  (forall s, P s -> P (f s)) -> preserves P (modify f).
Proof. intros Hf W H. apply Hf, H. Qed.

Lemma preserves_bind {A B} (P : Fader -> Prop) (m : M A) (k : A -> M B) :
  preserves P m -> (forall a, preserves P (k a)) -> preserves P (bind m k).
Proof.
  intros Hm Hk W H. unfold bind. specialize (Hm W H).
  destruct (m W) as [[a|e] W']; [apply Hk, Hm|exact Hm].
Qed.

Lemma preserves_for_each {A} (P : Fader -> Prop) (l : list A) (body : A -> M unit) :
  (forall x, x ∈ l -> preserves P (body x)) -> preserves P (for_each l body).
Proof.
  induction l as [|x l IH]; intros Hb; cbn [for_each].
  - apply preserves_ret.
  - apply preserves_bind.
    + apply Hb, list_elem_of_here.
    + intros _. apply IH. intros y Hy. apply Hb, list_elem_of_further, Hy.
Qed.

Section Port.

Variable port : list IO -> Con -> Q -> option string.

Lemma change_opacity_run (w : Con) (v : Q) (W : World) :
  change_opacity port w v W =
  (Return tt,
   {| self := self W; trace := trace W ++ Command w v :: caught port (trace W) w v |}).
Proof.
  unfold change_opacity, try_except, command, caught, emit.
  destruct (port (trace W) w v); cbn; [rewrite <- app_assoc|]; reflexivity.
Qed.

Lemma commands_caught (tr : list IO) (w : Con) (v : Q) :
  commands (caught port tr w v) = [].
Proof. unfold caught. destruct (port tr w v); reflexivity. Qed.

(** [add_fade] always returns, and touches nothing but the queue, the
    running flag and the trace. *)
Lemma add_fade_run (w : option Con) (s t : Q) (d : option Q) (W : World) :
  exists q' r' tr',
    add_fade port w s t d W =
    (Return tt,
     {| self := set_fader_running r' (set_fade_queue q' (self W));
        trace := trace W ++ tr' |}).
Proof.
  destruct W as [[fw q r b o a] tr].
  destruct w as [w|]; cbn.
  { assert (Hc : exists tr', change_opacity port w t
       {| self := Build_Fader fw q r b o a; trace := tr |} =
       (Return tt, {| self := Build_Fader fw q r b o a; trace := tr ++ tr' |})).
    { rewrite change_opacity_run. eauto. }
    destruct Hc as [tr' Hc].
    destruct d as [d|]; [destruct (Qeq_bool d 0 || Qeq_bool s t)|];
      try (exists q, r, tr'; exact Hc).
    exists (dict_set (id w) (new_fade w s t d) q), true, [].
    rewrite app_nil_r. destruct r; reflexivity. }
  exists q, r, []. rewrite app_nil_r. reflexivity.
Qed.

(** A request that is a real fade files [new_fade] and leaves the worker
    running; nothing is sent. *)
Lemma add_fade_fade (w : Con) (s t d : Q) (W : World) :
  ~ d == 0 -> ~ s == t ->
  add_fade port (Some w) s t (Some d) W =
  (Return tt,
   {| self := set_fader_running true
                (set_fade_queue
                   (dict_set (id w) (new_fade w s t d) (fade_queue (self W)))
                   (self W));
      trace := trace W |}).
Proof.
  intros Hd Hst. destruct W as [[fw q r b o a] tr]. cbn.
  destruct (Qeq_bool d 0) eqn:E1; [apply Qeq_bool_eq in E1; contradiction|].
  destruct (Qeq_bool s t) eqn:E2; [apply Qeq_bool_eq in E2; contradiction|].
  cbn. destruct r; reflexivity.
Qed.

(** A request that collapses sends one command and leaves [self] alone. *)
Lemma add_fade_immediate (w : Con) (s t : Q) (d : option Q) (W : World) :
  immediate s t d ->
  add_fade port (Some w) s t d W = change_opacity port w t W.
Proof.
  intros Hi. destruct d as [d|]; cbn; [|reflexivity].
  destruct Hi as [H|H]; apply Qeq_eq_bool in H; rewrite H; cbn;
    [|rewrite orb_true_r]; reflexivity.
Qed.


Lemma add_fade_ret (w : option Con) (s t : Q) (d : option Q) (W : World) :
  add_fade port w s t d W = (Return tt, (add_fade port w s t d W).2).
Proof.
  destruct (add_fade_run w s t d W) as (q & r & tr & ->). reflexivity.
Qed.

Lemma add_fade_roles (w : option Con) (s t : Q) (d : option Q) (W : World) :
  let W' := (add_fade port w s t d W).2 in
  bottom_win (self W') = bottom_win (self W)
  /\ active_win (self W') = active_win (self W)
  /\ old_win (self W') = old_win (self W)
  /\ floating_windows (self W') = floating_windows (self W).
Proof.
  destruct (add_fade_run w s t d W) as (q & r & tr & ->). cbn. tauto.
Qed.

Lemma bind_gets {A B} (f : Fader -> A) (k : A -> M B) (W : World) :
  bind (gets f) k W = k (f (self W)) W.
Proof. reflexivity. Qed.

Lemma bind_ret {A B} (a : A) (k : A -> M B) (W : World) :
  bind (ret a) k W = k a W.
Proof. reflexivity. Qed.

Lemma bind_modify {B} (f : Fader -> Fader) (k : unit -> M B) (W : World) :
  bind (modify f) k W = k tt {| self := f (self W); trace := trace W |}.
Proof. reflexivity. Qed.

Lemma bind_change_opacity {B} (w : Con) (v : Q) (k : unit -> M B) (W : World) :
  bind (change_opacity port w v) k W =
  k tt {| self := self W;
          trace := trace W ++ Command w v :: caught port (trace W) w v |}.
Proof. apply bind_Return, change_opacity_run. Qed.

(** Run straight-line handler code symbolically. *)
Ltac run :=
  repeat first
    [ rewrite bind_assoc
    | rewrite bind_gets
    | rewrite bind_modify
    | rewrite bind_ret
    | rewrite bind_change_opacity
    | rewrite change_opacity_run
    | progress cbn [self trace active_win old_win bottom_win floating_windows
                    fade_queue fader_running set_floating_windows
                    set_fade_queue set_fader_running set_bottom_win
                    set_old_win set_active_win negb andb orb attr] ].

(** Run a sequence of fade requests symbolically. *)
Ltac run_fades :=
  repeat first
    [ rewrite bind_assoc
    | rewrite (bind_Return _ _ _ _ _ (add_fade_ret _ _ _ _ _))
    | rewrite bind_gets ].

(** ** Focus changes *)

(** C10. A focus event handled while no active window is recorded does
    nothing at all: the handler returns, and the world (every field of
    [self], the fade queue included, and the trace of commands) is the one
    it started from. *)
Theorem focus_without_active_is_noop (W : World) (e : WindowEvent) :
  active_win (self W) = None ->
  on_window_focus port e W = (Return tt, W).
Proof.
  intros Ha. unfold on_window_focus, bind, gets. rewrite Ha. reflexivity.
Qed.

(** C7. When the active window and the newly focused one are both tiled and
    have different identifiers, the handler is exactly two fade requests,
    the new window from [CON_INAC] to [CON_AC] over [CON_IN] and then the
    old one from [CON_AC] to [CON_INAC] over [CON_OUT], followed by
    [active_win = new].  Both requests are real fades: afterwards the queue
    holds the two corresponding entries, nothing was sent to the window
    manager, and [active_win] is the new window. *)
Theorem focus_tiled_to_tiled (W : World) (e : WindowEvent) (old : Con) :
  active_win (self W) = Some old ->
  id old <> id (container e) ->
  type old = "con" ->
  type (container e) = "con" ->
  let new := container e in
  on_window_focus port e W =
    (add_fade port (Some new) CON_INAC CON_AC (Some CON_IN) ;;
     add_fade port (Some old) CON_AC CON_INAC (Some CON_OUT) ;;
     modify (set_active_win (Some new))) W
  /\ on_window_focus port e W =
     (Return tt,
      {| self :=
           {| floating_windows := floating_windows (self W);
              fade_queue :=
                dict_set (id old) (new_fade old CON_AC CON_INAC CON_OUT)
                  (dict_set (id new) (new_fade new CON_INAC CON_AC CON_IN)
                     (fade_queue (self W)));
              fader_running := true;
              bottom_win := bottom_win (self W);
              old_win := old_win (self W);
              active_win := Some new |};
         trace := trace W |}).
Proof.
  intros Ha Hid Hold Hnew new.
  assert (Heq : on_window_focus port e W =
    (add_fade port (Some new) CON_INAC CON_AC (Some CON_IN) ;;
     add_fade port (Some old) CON_AC CON_INAC (Some CON_OUT) ;;
     modify (set_active_win (Some new))) W).
  { unfold on_window_focus at 1. unfold gets at 1. unfold bind at 1.
    rewrite Ha. apply Z.eqb_neq in Hid. rewrite Hid.
    unfold is_con. rewrite Hold, Hnew. cbn [String.eqb Ascii.eqb Bool.eqb andb].
    apply bind_assoc. }
  split; [exact Heq|]. rewrite Heq.
  erewrite bind_Return by (apply add_fade_fade; discriminate).
  erewrite bind_Return by (apply add_fade_fade; discriminate).
  reflexivity.
Qed.

(** C1. When the active window is not tiled, the newly focused one is, and
    their identifiers differ, the handler first requests the fade of the
    old window from [FLOAT_AC] to [FLOAT_INAC] over [FLOAT_BOT_OUT], and
    then: with no bottom window, requests the new window from [CON_INAC] to
    [CON_AC] over [CON_IN]; with a bottom window of another identifier,
    requests the bottom from [BOT_INAC] to [CON_INAC] over
    [BOT_SWITCH_OUT], the new window from [CON_INAC] to [CON_AC] over
    [BOT_SWITCH_IN], and makes the new window the bottom; with a bottom
    window of the same identifier, requests only the bottom from
    [BOT_INAC] to [CON_AC] over [BOT_IN].  In every case the handler
    returns with [active_win] the new window. *)
Theorem focus_floating_to_tiled (W : World) (e : WindowEvent) (old : Con) :
  active_win (self W) = Some old ->
  id old <> id (container e) ->
  type old <> "con" ->
  type (container e) = "con" ->
  let new := container e in
  let first := add_fade port (Some old) FLOAT_AC FLOAT_INAC (Some FLOAT_BOT_OUT) in
  (bottom_win (self W) = None ->
   on_window_focus port e W =
     (first ;;
      add_fade port (Some new) CON_INAC CON_AC (Some CON_IN) ;;
      modify (set_active_win (Some new))) W
   /\ bottom_win (self (on_window_focus port e W).2) = None)
  /\ (forall bot, bottom_win (self W) = Some bot -> id new <> id bot ->
      on_window_focus port e W =
        (first ;;
         add_fade port (Some bot) BOT_INAC CON_INAC (Some BOT_SWITCH_OUT) ;;
         add_fade port (Some new) CON_INAC CON_AC (Some BOT_SWITCH_IN) ;;
         modify (set_bottom_win (Some new)) ;;
         modify (set_active_win (Some new))) W
      /\ bottom_win (self (on_window_focus port e W).2) = Some new)
  /\ (forall bot, bottom_win (self W) = Some bot -> id new = id bot ->
      on_window_focus port e W =
        (first ;;
         add_fade port (Some bot) BOT_INAC CON_AC (Some BOT_IN) ;;
         modify (set_active_win (Some new))) W
      /\ bottom_win (self (on_window_focus port e W).2) = Some bot)
  /\ (on_window_focus port e W).1 = Return tt
  /\ active_win (self (on_window_focus port e W).2) = Some new.
Proof.
  intros Ha Hid Hold Hnew new first.
  assert (Hold' : is_con old = false).
  { unfold is_con. apply String.eqb_neq. exact Hold. }
  assert (Hnew' : is_con new = true).
  { unfold is_con. apply String.eqb_eq. exact Hnew. }
  apply Z.eqb_neq in Hid. subst first.
  set (W1 := (add_fade port (Some old) FLOAT_AC FLOAT_INAC
                (Some FLOAT_BOT_OUT) W).2).
  assert (Hb1 : bottom_win (self W1) = bottom_win (self W)).
  { apply add_fade_roles. }
  assert (Hhead : on_window_focus port e W =
    (match bottom_win (self W) with
     | None => add_fade port (Some new) CON_INAC CON_AC (Some CON_IN)
     | Some bot =>
         if negb (Z.eqb (id new) (id bot)) then
           add_fade port (Some bot) BOT_INAC CON_INAC (Some BOT_SWITCH_OUT) ;;
           add_fade port (Some new) CON_INAC CON_AC (Some BOT_SWITCH_IN) ;;
           modify (set_bottom_win (Some new))
         else add_fade port (Some bot) BOT_INAC CON_AC (Some BOT_IN)
     end ;;
     modify (set_active_win (Some new))) W1).
  { unfold on_window_focus. rewrite bind_gets, Ha, Hid. fold new.
    rewrite Hold', Hnew'. cbn [andb negb]. run_fades. fold W1.
    rewrite Hb1. reflexivity. }
  rewrite Hhead. clear Hhead. run_fades. fold W1.
  destruct (bottom_win (self W)) as [bot|] eqn:Hb.
  - destruct (Z.eqb (id new) (id bot)) eqn:Hnb; cbn [negb].
    + apply Z.eqb_eq in Hnb. run_fades.
      split; [discriminate|]. split; [|split; [|split; reflexivity]].
      * intros b' [= <-] Hne. contradiction.
      * intros b' [= <-] _. run_fades. split; [reflexivity|].
        unfold modify. cbn [snd self bottom_win set_active_win].
        etransitivity; [apply add_fade_roles|exact Hb1].
    + apply Z.eqb_neq in Hnb. run_fades.
      split; [discriminate|]. split; [|split; [|split; reflexivity]].
      * intros b' [= <-] _. run_fades. split; reflexivity.
      * intros b' [= <-] Heq. contradiction.
  - run_fades. split; [|split; [discriminate|split; [discriminate|split; reflexivity]]].
    intros _. split; [reflexivity|].
    unfold modify. cbn [snd self bottom_win set_active_win].
    etransitivity; [apply add_fade_roles|]. rewrite Hb1. reflexivity.
Qed.

(** ** Immediate requests *)

(** C6. A request whose duration is absent or zero, or whose start equals
    its target, returns after exactly one opacity command, for the
    requested window and carrying the target; the fade queue and every
    other field of [self] are as before. *)
Theorem immediate_request_sends_once
  (W : World) (w : Con) (s t : Q) (d : option Q) :
  immediate s t d ->
  let W' := (add_fade port (Some w) s t d W).2 in
  (add_fade port (Some w) s t d W).1 = Return tt
  /\ self W' = self W
  /\ (exists out, trace W' = trace W ++ out /\ commands out = [(w, t)]).
Proof.
  intros Hi. cbn zeta. rewrite (add_fade_immediate w s t d W Hi).
  rewrite change_opacity_run. cbn [fst snd self trace].
  repeat split. eexists. split; [reflexivity|].
  cbn. rewrite commands_caught. reflexivity.
Qed.

(** ** Floating toggles *)

(** C5. When a window that is not yet in [floating_windows] and is the
    active one toggles, and both a previous and a bottom window are
    recorded with the previous one tiled, the handler returns having made
    the previous window the bottom, sent exactly two opacity commands, the
    new bottom to [BOT_INAC] and then the toggled window to [FLOAT_AC],
    and queued no fade; the toggled window is recorded as floating and is
    the active window. *)
Theorem floating_toggle_of_active
  (W : World) (e : WindowEvent) (act prev bot : Con) :
  id (container e) ∉ floating_windows (self W) ->
  active_win (self W) = Some act ->
  id act = id (container e) ->
  old_win (self W) = Some prev ->
  bottom_win (self W) = Some bot ->
  type prev = "con" ->
  let c := container e in
  exists out,
    on_window_floating port e W =
    (Return tt,
     {| self :=
          {| floating_windows := {[ id c ]} ∪ floating_windows (self W);
             fade_queue := fade_queue (self W);
             fader_running := fader_running (self W);
             bottom_win := Some prev;
             old_win := Some prev;
             active_win := Some c |};
        trace := trace W ++ out |})
    /\ commands out = [(prev, BOT_INAC); (c, FLOAT_AC)].
Proof.
  intros Hnot Ha Hid Ho Hb Hprev c.
  destruct W as [[fw q r b o a] tr]. cbn in Hnot, Ha, Ho, Hb. subst a o b.
  assert (Hp : is_con prev = true).
  { unfold is_con. apply String.eqb_eq. exact Hprev. }
  unfold on_window_floating. run.
  rewrite bool_decide_eq_false_2 by exact Hnot. run.
  subst c. apply Z.eqb_eq in Hid. rewrite Hid. run. rewrite Hp. run.
  unfold modify. run.
  rewrite <- app_assoc. eexists. split; [reflexivity|].
  cbn. rewrite commands_app. cbn. rewrite !commands_caught. reflexivity.
Qed.

(** ** What every reachable world satisfies *)

Lemma preserves_change_opacity (P : Fader -> Prop) (w : Con) (v : Q) :
  preserves P (change_opacity port w v).
Proof. intros W H. rewrite change_opacity_run. exact H. Qed.

Lemma preserves_add_fade_roles (P : Fader -> Prop)
  (w : option Con) (s t : Q) (d : option Q) :
  (forall x q r, P x -> P (set_fader_running r (set_fade_queue q x))) ->
  preserves P (add_fade port w s t d).
Proof.
  intros HP W H. destruct (add_fade_run w s t d W) as (q & r & tr & ->).
  apply HP, H.
Qed.

Lemma preserves_add_fade_wf (w : option Con) (s t : Q) (d : option Q) :
  preserves (fun x => wf_queue (fade_queue x)) (add_fade port w s t d).
Proof.
  intros W H. destruct w as [w|]; [|exact H].
  destruct d as [d|]; [|cbn [add_fade]; rewrite change_opacity_run; exact H].
  destruct (Qeq_bool d 0) eqn:Ed.
  { rewrite add_fade_immediate by (left; apply Qeq_bool_eq, Ed).
    rewrite change_opacity_run. exact H. }
  destruct (Qeq_bool s t) eqn:Est.
  { rewrite add_fade_immediate by (right; apply Qeq_bool_eq, Est).
    rewrite change_opacity_run. exact H. }
  rewrite add_fade_fade by (apply Qeq_bool_neq; assumption).
  cbn. apply wf_queue_dict_set; [exact H|reflexivity].
Qed.

(** Walk through a handler, one construct at a time. *)
Ltac keeps :=
  repeat match goal with
  | |- preserves _ (bind _ _) => apply preserves_bind; [|intros ?]
  | |- preserves _ (ret _) => apply preserves_ret
  | |- preserves _ (raise _) => apply preserves_raise
  | |- preserves _ (gets _) => apply preserves_gets
  | |- preserves _ (attr _ _) => apply preserves_attr
  | |- preserves _ (change_opacity _ _ _) => apply preserves_change_opacity
  | |- preserves _ (modify _) => apply preserves_modify; intros; solve [eauto]
  | |- preserves _ (add_fade _ _ _ _ _) => solve [auto]
  | |- preserves _ (match ?c with _ => _ end) =>
      match c with
      | context [is_con ?w] => destruct (is_con w) eqn:?; cbn [andb negb]
      end
  | |- preserves _ (match ?c with _ => _ end) => destruct c eqn:?
  end.

Lemma preserves_on_window_focus (P : Fader -> Prop) (e : WindowEvent) :
  (forall w s t d, preserves P (add_fade port w s t d)) ->
  (forall x b, P x -> is_con b = true -> P (set_bottom_win (Some b) x)) ->
  (forall x a, P x -> P (set_active_win a x)) ->
  preserves P (on_window_focus port e).
Proof. intros Hadd Hbot Hact. unfold on_window_focus. keeps. Qed.

Lemma preserves_on_window_new (P : Fader -> Prop) (e : WindowEvent) :
  (forall x b, P x -> is_con b = true -> P (set_bottom_win (Some b) x)) ->
  (forall x a, P x -> P (set_active_win a x)) ->
  (forall x a, P x -> P (set_old_win a x)) ->
  preserves P (on_window_new port e).
Proof. intros Hbot Hact Hold. unfold on_window_new. keeps. Qed.

Lemma preserves_on_window_floating (P : Fader -> Prop) (e : WindowEvent) :
  (forall x b, P x -> is_con b = true -> P (set_bottom_win (Some b) x)) ->
  (forall x a, P x -> P (set_active_win a x)) ->
  (forall x fw, P x -> P (set_floating_windows fw x)) ->
  preserves P (on_window_floating port e).
Proof. intros Hbot Hact Hfw. unfold on_window_floating. keeps. Qed.

Lemma preserves_dispatch (P : Fader -> Prop) (ev : Event) (e : WindowEvent) :
  (forall w s t d, preserves P (add_fade port w s t d)) ->
  (forall x b, P x -> is_con b = true -> P (set_bottom_win (Some b) x)) ->
  (forall x a, P x -> P (set_active_win a x)) ->
  (forall x a, P x -> P (set_old_win a x)) ->
  (forall x fw, P x -> P (set_floating_windows fw x)) ->
  preserves P (dispatch port ev e).
Proof.
  intros. destruct ev; cbn [dispatch];
    [apply preserves_on_window_focus|apply preserves_on_window_new
    |apply preserves_on_window_floating]; assumption.
Qed.

Lemma preserves_init_existing_windows (P : Fader -> Prop) (l : list Con) :
  (forall x a, P x -> P (set_active_win a x)) ->
  (forall x fw, P x -> P (set_floating_windows fw x)) ->
  preserves P (init_existing_windows port l).
Proof.
  intros Hact Hfw. apply preserves_for_each. intros w _.
  unfold init_window. keeps.
Qed.

(** ** The worker loop *)

(** The pass over the snapshot returns; it writes every advanced entry back
    under its key, collects the keys of the finished ones, and issues one
    command per entry, whatever the port does. *)
Lemma fade_pass_run (items : list (Z * Fade)) :
  forall (finished : list Z) (W : World),
  exists out,
    fade_pass port items finished W =
    (Return (finished ++ (filter (fun kf => fade_done (advance kf.2) = true) items).*1),
     {| self :=
          set_fade_queue
            (foldl (fun q kf => dict_set kf.1 (advance kf.2) q)
               (fade_queue (self W)) items)
            (self W);
        trace := trace W ++ out |})
    /\ commands out = issued <$> items.*2.
Proof.
  induction items as [|[k f] items IH]; intros finished W.
  - exists []. rewrite !app_nil_r. split; [|reflexivity].
    destruct W as [[fw q r b o a] tr]. reflexivity.
  - cbn [fade_pass]. rewrite bind_gets, bind_modify.
    destruct (fade_done (advance f)) eqn:Hd; rewrite bind_change_opacity.
    + match goal with |- context [fade_pass _ _ ?fin ?w] =>
        destruct (IH fin w) as (out & -> & Hout) end.
      eexists. split.
      * rewrite filter_cons_True by exact Hd. cbn [fmap list_fmap fst].
        cbn [self trace]. rewrite <- !app_assoc. reflexivity.
      * cbn. rewrite commands_app, commands_caught, Hout. cbn.
        unfold issued at 2. rewrite Hd. reflexivity.
    + match goal with |- context [fade_pass _ _ ?fin ?w] =>
        destruct (IH fin w) as (out & -> & Hout) end.
      eexists. split.
      * rewrite filter_cons_False by (cbn; rewrite Hd; discriminate).
        cbn [self trace]. rewrite <- !app_assoc. reflexivity.
      * cbn. rewrite commands_app, commands_caught, Hout. cbn.
        unfold issued at 2. rewrite Hd. reflexivity.
Qed.

Lemma pops_run (finished : list Z) :
  forall W : World,
    for_each finished (fun fid =>
      q' <- gets fade_queue ;; modify (set_fade_queue (dict_pop fid q'))) W =
    (Return tt,
     {| self :=
          set_fade_queue
            (foldl (fun q k => dict_pop k q) (fade_queue (self W)) finished)
            (self W);
        trace := trace W |}).
Proof.
  induction finished as [|k fin IH]; intros W; cbn [for_each].
  - destruct W as [[fw q r b o a] tr]. reflexivity.
  - cbn beta. rewrite bind_assoc, bind_gets, bind_modify, IH. reflexivity.
Qed.

(** One iteration always returns, and changes only the queue, the running
    flag and the trace. *)
Lemma fader_iteration_frame (W : World) :
  exists out,
    fader_iteration port W =
    (Return (match fade_queue (self W) with [] => false | _ :: _ => true end),
     {| self :=
          set_fader_running
            (match fade_queue (self W) with
             | [] => false
             | _ :: _ => fader_running (self W)
             end)
            (set_fade_queue (loop_queue (fade_queue (self W))) (self W));
        trace := trace W ++ out |})
    /\ commands out = issued <$> (fade_queue (self W)).*2.
Proof.
  destruct W as [[fw q r b o a] tr].
  unfold fader_iteration. rewrite bind_gets. cbn [self fade_queue].
  destruct q as [|kf q].
  - exists []. rewrite bind_modify, app_nil_r.
    split; reflexivity.
  - match goal with |- context [bind (fade_pass _ ?l _) _ ?w] =>
      destruct (fade_pass_run l [] w) as (out & Hrun & Hout) end.
    exists out. split; [|exact Hout].
    rewrite (bind_Return _ _ _ _ _ Hrun).
    erewrite bind_Return by apply pops_run.
    unfold ret, set_fade_queue, set_fader_running.
    cbn [self trace fade_queue floating_windows fader_running bottom_win
         old_win active_win].
    reflexivity.
Qed.

Lemma loop_queue_tick_queue (q : dict) :
  NoDup (keys q) -> loop_queue q = tick_queue q.
Proof.
  intros Hnd. unfold loop_queue.
  pose proof (foldl_set_advance q [] Hnd) as Hset.
  cbn [app] in Hset. rewrite Hset.
  apply foldl_pop_finished, Hnd.
Qed.

(** On a queue without duplicate keys, one iteration is [tick_queue]. *)
Lemma fader_iteration_queue (W : World) :
  NoDup (keys (fade_queue (self W))) ->
  fade_queue (self (fader_iteration port W).2) = tick_queue (fade_queue (self W)).
Proof.
  intros Hnd. destruct (fader_iteration_frame W) as (out & -> & _).
  apply loop_queue_tick_queue, Hnd.
Qed.

Lemma preserves_fader_iteration (P : Fader -> Prop) :
  (forall x q r, P x -> P (set_fader_running r (set_fade_queue q x))) ->
  preserves P (fader_iteration port).
Proof.
  intros HP W H. destruct (fader_iteration_frame W) as (out & -> & _).
  apply HP, H.
Qed.

Lemma preserves_fader_iteration_wf :
  preserves (fun x => wf_queue (fade_queue x)) (fader_iteration port).
Proof.
  intros W H. rewrite fader_iteration_queue by apply H.
  apply wf_tick_queue, H.
Qed.

Lemma fader_loop_returns (n : nat) :
  forall W, (fader_loop port n W).1 = Return tt.
Proof.
  induction n as [|n IH]; intros W; [reflexivity|]. cbn [fader_loop].
  destruct (fader_iteration_frame W) as (out & Hrun & _).
  rewrite (bind_Return _ _ _ _ _ Hrun).
  destruct (fade_queue (self W)); [reflexivity|apply IH].
Qed.

Lemma tick_queue_iter_nil (n : nat) : Nat.iter n tick_queue [] = [].
Proof.
  induction n as [|n IH]; [reflexivity|].
  rewrite Nat.iter_succ, IH. reflexivity.
Qed.

Lemma NoDup_tick_queue (q : dict) : NoDup (keys q) -> NoDup (keys (tick_queue q)).
Proof. intros H. eapply sublist_NoDup; [exact H|apply keys_tick_queue]. Qed.

(** [n] iterations of the loop are [n] applications of [tick_queue]. *)
Lemma fader_loop_queue (n : nat) :
  forall W,
    NoDup (keys (fade_queue (self W))) ->
    fade_queue (self (fader_loop port n W).2) =
    Nat.iter n tick_queue (fade_queue (self W)).
Proof.
  induction n as [|n IH]; intros W Hnd; [reflexivity|]. cbn [fader_loop].
  pose proof (fader_iteration_queue W Hnd) as Hq.
  destruct (fader_iteration_frame W) as (out & Hrun & _).
  rewrite (bind_Return _ _ _ _ _ Hrun). rewrite Hrun in Hq.
  rewrite Nat.iter_succ_r.
  destruct (fade_queue (self W)) as [|kf q0] eqn:E.
  - cbn [snd] in Hq. unfold ret. cbn [snd]. rewrite Hq.
    change (tick_queue []) with (@nil (Z * Fade)).
    symmetry. apply tick_queue_iter_nil.
  - cbn [snd] in Hq. rewrite IH; rewrite Hq; [reflexivity|].
    apply NoDup_tick_queue. exact Hnd.
Qed.

Lemma dict_get_tick_iter (k : Z) (n : nat) (q : dict) (f : Fade) :
  NoDup (keys q) -> dict_get k q = Some f ->
  dict_get k (Nat.iter n tick_queue q) = fade_after n f.
Proof.
  intros Hnd Hk. induction n as [|n IH]; [exact Hk|].
  rewrite Nat.iter_succ. cbn [fade_after].
  rewrite dict_get_tick_queue, IH; [reflexivity|].
  clear IH. induction n as [|n IH]; [exact Hnd|].
  rewrite Nat.iter_succ. apply NoDup_tick_queue, IH.
Qed.

(** ** Invariants of the reachable worlds *)

Lemma reachable_wf_queue (W : World) :
  reachable port W -> wf_queue (fade_queue (self W)).
Proof.
  induction 1 as [l|W W' _ IH Hstep].
  - unfold init.
    apply (preserves_init_existing_windows
             (fun x => wf_queue (fade_queue x)) l); try (intros; assumption).
    split; [apply NoDup_nil_2|constructor].
  - destruct Hstep as [ev e W|W _].
    + apply (preserves_dispatch (fun x => wf_queue (fade_queue x)));
        try (intros; assumption).
      apply preserves_add_fade_wf.
    + apply preserves_fader_iteration_wf, IH.
Qed.

Lemma init_bottom_win (descendants : list Con) :
  bottom_win (self (init port descendants)) = None.
Proof.
  unfold init.
  apply (preserves_init_existing_windows
           (fun x => bottom_win x = None) descendants);
    try (intros; assumption). reflexivity.
Qed.

(** C8. In every world the program can reach from its initial state (where
    [bottom_win] is [None]) by handling focus, new-window and floating
    events and by iterations of the worker loop, [bottom_win] is [None] or
    a container whose type is "con". *)
Theorem bottom_is_tiled_or_none (W : World) :
  reachable port W -> bottom_tiled (self W).
Proof.
  assert (Hset : forall x b, bottom_tiled x -> is_con b = true ->
                             bottom_tiled (set_bottom_win (Some b) x)).
  { intros x b _ Hb. unfold bottom_tiled. cbn. apply String.eqb_eq, Hb. }
  induction 1 as [l|W W' _ IH Hstep].
  - unfold bottom_tiled. rewrite init_bottom_win. exact I.
  - destruct Hstep as [ev e W|W _].
    + apply (preserves_dispatch bottom_tiled);
        try exact Hset; try (intros; assumption).
      intros w s t d. apply preserves_add_fade_roles. intros; assumption.
    + apply (preserves_fader_iteration bottom_tiled); intros; assumption.
Qed.

(** ** One fade per window *)

(** C3, as the code has it.  In every reachable world no identifier has two
    entries in the fade queue, and a request keeps it so.  A request that is
    a real fade (duration present and not zero, start different from
    target) leaves exactly one entry for the window's identifier, and that
    entry has the opacity, rate, target and window of this request, whether
    or not a fade for the window was in flight.  A request that collapses
    to an immediate command leaves the queue, and so any entry in flight
    for the window, as it was. *)
Theorem one_fade_per_window (W : World) (w : Con) (s t : Q) (d : option Q) :
  reachable port W ->
  let q := fade_queue (self W) in
  let q' := fade_queue (self (add_fade port (Some w) s t d W).2) in
  NoDup (keys q)
  /\ NoDup (keys q')
  /\ (forall x, d = Some x -> ~ x == 0 -> ~ s == t ->
      dict_get (id w) q' = Some (new_fade w s t x)
      /\ entries (id w) q' = 1%nat
      /\ forall k, k <> id w -> dict_get k q' = dict_get k q)
  /\ (immediate s t d -> q' = q).
Proof.
  intros Hreach q q'. pose proof (reachable_wf_queue W Hreach) as Hwf.
  pose proof (preserves_add_fade_wf (Some w) s t d W Hwf) as Hwf'.
  split; [apply Hwf|]. split; [apply Hwf'|]. split.
  - intros x -> Hx Hst. subst q q'. rewrite add_fade_fade by assumption.
    cbn [snd self fade_queue set_fader_running set_fade_queue].
    split; [apply dict_get_set_eq|]. split.
    + apply entries_present; [apply NoDup_dict_set, Hwf|].
      apply dict_get_None_inv. rewrite dict_get_set_eq. discriminate.
    + intros k Hk. apply dict_get_set_ne. congruence.
  - intros Hi. subst q q'. rewrite add_fade_immediate by exact Hi.
    rewrite change_opacity_run. reflexivity.
Qed.

End Port.

(** ** Failing commands *)

Lemma fader_iteration_any_port
  (port1 port2 : list IO -> Con -> Q -> option string) (W1 W2 : World) :
  self W1 = self W2 ->
  commands (trace W1) = commands (trace W2) ->
  (fader_iteration port1 W1).1 = (fader_iteration port2 W2).1
  /\ self (fader_iteration port1 W1).2 = self (fader_iteration port2 W2).2
  /\ commands (trace (fader_iteration port1 W1).2) =
     commands (trace (fader_iteration port2 W2).2).
Proof.
  intros Hs Ht.
  destruct (fader_iteration_frame port1 W1) as (out1 & -> & Ho1).
  destruct (fader_iteration_frame port2 W2) as (out2 & -> & Ho2).
  cbn [fst snd self trace]. rewrite !commands_app, Ho1, Ho2, Ht, Hs.
  repeat split.
Qed.

Lemma fader_loop_any_port
  (port1 port2 : list IO -> Con -> Q -> option string) (n : nat) :
  forall W1 W2,
    self W1 = self W2 ->
    commands (trace W1) = commands (trace W2) ->
    self (fader_loop port1 n W1).2 = self (fader_loop port2 n W2).2
    /\ commands (trace (fader_loop port1 n W1).2) =
       commands (trace (fader_loop port2 n W2).2).
Proof.
  induction n as [|n IH]; intros W1 W2 Hs Ht; [split; assumption|].
  cbn [fader_loop].
  destruct (fader_iteration_any_port port1 port2 W1 W2 Hs Ht) as (H1 & H2 & H3).
  unfold bind.
  destruct (fader_iteration port1 W1) as [o1 W1'].
  destruct (fader_iteration port2 W2) as [o2 W2'].
  cbn [fst snd] in H1, H2, H3. subst o2.
  destruct o1 as [[|]|e]; [apply IH| |]; try split; assumption.
Qed.

(** C9. A failing opacity command never leaves [change_opacity]: the call
    returns, having recorded the command and the warning.  Hence, whatever
    the port does, one iteration of the worker loop returns, attempts the
    command of every entry of the queue in order, and leaves [self] as on
    a port that never fails; and any number of iterations return, with the
    same [self] and the same commands as on a port that never fails. *)
Theorem command_failure_is_contained
  (port : list IO -> Con -> Q -> option string) (W : World) :
  (forall w v e,
     port (trace W) w v = Some e ->
     change_opacity port w v W =
     (Return tt,
      {| self := self W;
         trace := trace W ++ [Command w v; Warn (name_or_id w) e] |}))
  /\ (exists go_on out,
        fader_iteration port W =
        (Return go_on,
         {| self := self (fader_iteration reliable W).2;
            trace := trace W ++ out |})
        /\ commands out = issued <$> (fade_queue (self W)).*2)
  /\ (forall n,
        (fader_loop port n W).1 = Return tt
        /\ self (fader_loop port n W).2 = self (fader_loop reliable n W).2
        /\ commands (trace (fader_loop port n W).2) =
           commands (trace (fader_loop reliable n W).2)).
Proof.
  split; [|split].
  - intros w v e He. rewrite change_opacity_run. unfold caught. rewrite He.
    reflexivity.
  - destruct (fader_iteration_frame port W) as (out & E & Hout).
    destruct (fader_iteration_frame reliable W) as (out' & E' & _).
    do 2 eexists. split; [|exact Hout]. rewrite E, E'. reflexivity.
  - intros n. split; [apply fader_loop_returns|].
    apply fader_loop_any_port; reflexivity.
Qed.

(** ** Convergence of a fade *)

Lemma issued_absent (k : Z) (q : dict) :
  Forall (fun kf => id (win kf.2) = kf.1) q ->
  k ∉ keys q ->
  filter (fun c : Con * Q => id c.1 = k) (issued <$> q.*2) = [].
Proof.
  unfold keys. induction q as [|[k' f] q IH]; [reflexivity|].
  rewrite Forall_cons, !fmap_cons, not_elem_of_cons. cbn [fst snd].
  intros [Hid Hall] [Hne Hk].
  rewrite filter_cons_False by (cbn; congruence). apply IH; assumption.
Qed.

(** In one iteration the window of an entry receives exactly the command of
    that entry. *)
Lemma issued_for (k : Z) (q : dict) (f : Fade) :
  wf_queue q -> dict_get k q = Some f ->
  (filter (fun c : Con * Q => id c.1 = k) (issued <$> q.*2)).*2 = [(issued f).2].
Proof.
  unfold wf_queue, keys. induction q as [|[k' f'] q IH]; [discriminate|].
  rewrite Forall_cons, !fmap_cons, NoDup_cons. cbn [fst snd dict_get].
  intros [[Hk' Hnd] [Hid Hall]].
  destruct (Z.eqb k' k) eqn:E.
  - apply Z.eqb_eq in E. destruct E. intros [= ->].
    rewrite filter_cons_True by exact Hid.
    rewrite issued_absent by assumption. reflexivity.
  - apply Z.eqb_neq in E. intros Hf.
    rewrite filter_cons_False by (cbn; congruence).
    apply IH; [split; assumption|exact Hf].
Qed.

Local Open Scope Q_scope.

(** C2. Take an entry [f] of a well-formed queue with a rate other than
    zero, and run one iteration of the loop.  If the entry stays, it is
    [advance f]: its opacity moved in the direction of the rate (not down
    for a positive rate, not up for a negative one), is still short of the
    target, and is what its window was sent.  If the entry is removed, the
    opacity had reached or passed the target and its window was sent
    exactly [target f], not the overshot value.  The queue stays well
    formed and the rate is unchanged, so this holds tick after tick; and
    the removal does happen: there is a number of iterations before which
    the entry is queued and after which it is gone. *)
Theorem fade_converges_monotonically
  (port : list IO -> Con -> Q -> option string)
  (W : World) (k : Z) (f : Fade) :
  wf_queue (fade_queue (self W)) ->
  dict_get k (fade_queue (self W)) = Some f ->
  ~ change f == 0 ->
  let W' := (fader_iteration port W).2 in
  (exists out,
     trace W' = trace W ++ out
     /\ match dict_get k (fade_queue (self W')) with
        | Some f' =>
            f' = advance f
            /\ commands_for k out = [opacity f']
            /\ (0 < change f ->
                opacity f <= opacity f' /\ opacity f' < target f)
            /\ (change f < 0 ->
                opacity f' <= opacity f /\ target f < opacity f')
        | None =>
            commands_for k out = [target f]
            /\ (0 < change f -> target f <= opacity f + change f)
            /\ (change f < 0 -> opacity f + change f <= target f)
        end)
  /\ wf_queue (fade_queue (self W'))
  /\ exists N,
       (forall m, (m < N)%nat ->
          is_Some (dict_get k (fade_queue (self (fader_loop port m W).2))))
       /\ dict_get k (fade_queue (self (fader_loop port N W).2)) = None.
Proof.
  intros Hwf Hk Hc W'. split; [|split].
  - pose proof (fader_iteration_queue port W (proj1 Hwf)) as Hq. fold W' in Hq.
    destruct (fader_iteration_frame port W) as (out & Hrun & Hout).
    exists out. split; [subst W'; rewrite Hrun; reflexivity|].
    rewrite Hq, dict_get_tick_queue, Hk by apply Hwf.
    cbn [mbind option_bind]. unfold fade_tick.
    assert (Hcmd : commands_for k out = [(issued f).2]).
    { unfold commands_for. rewrite Hout. apply issued_for; assumption. }
    rewrite Hcmd. unfold issued. cbn [snd].
    destruct (fade_done (advance f)) eqn:Hd.
    + apply fade_done_true in Hd. cbn [advance change target opacity] in Hd.
      split; [reflexivity|].
      split; intros; destruct Hd as [[? ?]|[? ?]]; lra.
    + split; [reflexivity|]. split; [reflexivity|].
      assert (Hn : ~ ((0 < change f /\ target f <= opacity f + change f)
                      \/ (change f < 0 /\ opacity f + change f <= target f))).
      { intros H. apply (fade_done_true (advance f)) in H. congruence. }
      cbn [advance opacity].
      split; intros; (split; [lra|]); apply Qnot_le_lt; intros ?; apply Hn; tauto.
  - apply preserves_fader_iteration_wf, Hwf.
  - assert (Hget : forall m,
      dict_get k (fade_queue (self (fader_loop port m W).2)) = fade_after m f).
    { intros m. rewrite fader_loop_queue by apply Hwf.
      apply dict_get_tick_iter; [apply Hwf|exact Hk]. }
    destruct (fade_finishes f Hc) as [n Hn].
    destruct (fade_after_first_gone (S n) f (fade_after_done n f Hn))
      as (N & Hlive & Hgone).
    exists N. split.
    + intros m Hm. rewrite Hget. apply Hlive, Hm.
    + rewrite Hget. exact Hgone.
Qed.

(** C4. A fade requested with a positive duration and a start different
    from its target, in any well-formed queue, is still queued after every
    number of iterations below [ceiling (duration / FRAME_T)] and is gone
    after exactly that many; this number is at least one and does not
    depend on the other entries. *)
Theorem fade_completes_in_ceiling_ticks
  (port : list IO -> Con -> Q -> option string)
  (W : World) (w : Con) (s t d : Q) :
  wf_queue (fade_queue (self W)) ->
  0 < d ->
  ~ s == t ->
  let W1 := (add_fade port (Some w) s t (Some d) W).2 in
  let N := Z.to_nat (Qceiling (d / FRAME_T)) in
  (1 <= N)%nat
  /\ (forall m, (m < N)%nat ->
        is_Some (dict_get (id w) (fade_queue (self (fader_loop port m W1).2))))
  /\ dict_get (id w) (fade_queue (self (fader_loop port N W1).2)) = None.
Proof.
  intros Hwf Hd Hst W1 N.
  assert (Hd0 : ~ d == 0) by lra.
  assert (HN : Z.of_nat N = Qceiling (d / FRAME_T) /\ (1 <= N)%nat).
  { assert (H0 : 0 < d / FRAME_T).
    { apply Qlt_shift_div_l; [reflexivity|lra]. }
    pose proof (Qle_ceiling (d / FRAME_T)) as Hc.
    assert (Hz : (0 < Qceiling (d / FRAME_T))%Z).
    { rewrite Zlt_Qlt. eapply Qlt_le_trans; [exact H0|exact Hc]. }
    subst N. lia. }
  destruct HN as [HNeq HN]. clearbody N.
  assert (Hq1 : fade_queue (self W1) =
                dict_set (id w) (new_fade w s t d) (fade_queue (self W))).
  { subst W1. rewrite add_fade_fade by assumption. reflexivity. }
  assert (Hnd1 : NoDup (keys (fade_queue (self W1)))).
  { rewrite Hq1. apply NoDup_dict_set, Hwf. }
  assert (Hget : forall m,
    dict_get (id w) (fade_queue (self (fader_loop port m W1).2)) =
    fade_after m (new_fade w s t d)).
  { intros m. rewrite fader_loop_queue by exact Hnd1.
    apply dict_get_tick_iter; [exact Hnd1|].
    rewrite Hq1. apply dict_get_set_eq. }
  split; [exact HN|]. split.
  - intros m Hm. rewrite Hget, fade_after_alive; [eexists; reflexivity|].
    intros i Hi. apply not_true_is_false. intros Hdone.
    apply new_fade_done_iff in Hdone; [|assumption..]. lia.
  - rewrite Hget. destruct N as [|n]; [lia|].
    apply fade_after_done. apply new_fade_done_iff; [assumption..|]. lia.
Qed.

Local Open Scope Z_scope.

(** * The theorems at work *)

Lemma reachable_world_a : reachable flaky world_a.
Proof. apply reach_init. Qed.

Lemma reachable_world_ab : reachable flaky world_ab.
Proof. eapply reach_step; [apply reachable_world_a|apply step_event]. Qed.

Lemma reachable_world_af : reachable flaky world_af.
Proof. eapply reach_step; [apply reachable_world_a|apply step_event]. Qed.

(** A first focus event on a freshly created object. *)
Lemma focus_without_active_is_noop_witness :
  active_win (self world0) = None
  /\ on_window_focus flaky {| container := win_a |} world0 = (Return tt, world0).
Proof.
  split; [reflexivity|].
  apply (focus_without_active_is_noop flaky world0); reflexivity.
Defined.

(** The focus moves from the tiled A to the tiled B. *)
Lemma focus_tiled_to_tiled_witness :
  active_win (self world_a) = Some win_a
  /\ fade_queue (self world_ab) =
     [(2, new_fade win_b CON_INAC CON_AC CON_IN);
      (1, new_fade win_a CON_AC CON_INAC CON_OUT)]
  /\ active_win (self world_ab) = Some win_b
  /\ trace world_ab = trace world_a.
Proof.
  split; [reflexivity|].
  destruct (focus_tiled_to_tiled flaky world_a {| container := win_b |} win_a)
    as [_ H]; [reflexivity|discriminate|reflexivity|reflexivity|].
  unfold world_ab. cbn [dispatch]. rewrite H. repeat split.
Defined.

(** With F active over the bottom window A, the focus moves to the tiled B. *)
Lemma focus_floating_to_tiled_witness :
  active_win (self world_af) = Some win_f
  /\ bottom_win (self world_af) = Some win_a
  /\ on_window_focus flaky {| container := win_b |} world_af =
     (add_fade flaky (Some win_f) FLOAT_AC FLOAT_INAC (Some FLOAT_BOT_OUT) ;;
      add_fade flaky (Some win_a) BOT_INAC CON_INAC (Some BOT_SWITCH_OUT) ;;
      add_fade flaky (Some win_b) CON_INAC CON_AC (Some BOT_SWITCH_IN) ;;
      modify (set_bottom_win (Some win_b)) ;;
      modify (set_active_win (Some win_b))) world_af
  /\ bottom_win (self (on_window_focus flaky {| container := win_b |} world_af).2)
     = Some win_b
  /\ active_win (self (on_window_focus flaky {| container := win_b |} world_af).2)
     = Some win_b.
Proof.
  split; [reflexivity|]. split; [reflexivity|].
  destruct (focus_floating_to_tiled flaky world_af {| container := win_b |} win_f)
    as (_ & Hswitch & _ & _ & Hact);
    [reflexivity|discriminate|discriminate|reflexivity|].
  destruct (Hswitch win_a) as [Heq Hbot]; [reflexivity|discriminate|].
  repeat split; assumption.
Defined.

(** A zero-duration request for B, on a port where commands for B fail. *)
Lemma immediate_request_sends_once_witness :
  immediate (1 # 2) 1%Q (Some 0%Q)
  /\ (add_fade flaky (Some win_b) (1 # 2) 1%Q (Some 0%Q) world_ab).1 = Return tt
  /\ self (add_fade flaky (Some win_b) (1 # 2) 1%Q (Some 0%Q) world_ab).2 =
     self world_ab
  /\ exists out,
       trace (add_fade flaky (Some win_b) (1 # 2) 1%Q (Some 0%Q) world_ab).2 =
       trace world_ab ++ out
       /\ commands out = [(win_b, 1%Q)].
Proof.
  assert (Hi : immediate (1 # 2) 1%Q (Some 0%Q)) by (left; reflexivity).
  split; [exact Hi|].
  apply (immediate_request_sends_once flaky world_ab win_b (1 # 2) 1%Q (Some 0%Q) Hi).
Defined.

(** The new window C, active, toggles to floating. *)
Lemma floating_toggle_of_active_witness :
  (id win_c ∉ floating_windows (self world_ac))
  /\ active_win (self world_ac) = Some win_c
  /\ old_win (self world_ac) = Some win_a
  /\ bottom_win (self world_ac) = Some win_a
  /\ exists out,
       on_window_floating flaky {| container := win_c |} world_ac =
       (Return tt,
        {| self :=
             {| floating_windows := {[ 4 ]} ∪ floating_windows (self world_ac);
                fade_queue := [];
                fader_running := false;
                bottom_win := Some win_a;
                old_win := Some win_a;
                active_win := Some win_c |};
           trace := trace world_ac ++ out |})
       /\ commands out = [(win_a, BOT_INAC); (win_c, FLOAT_AC)].
Proof.
  assert (Hnot : id win_c ∉ floating_windows (self world_ac)).
  { apply (bool_decide_eq_false_1 _). vm_compute. reflexivity. }
  split; [exact Hnot|]. do 3 (split; [reflexivity|]).
  apply (floating_toggle_of_active flaky world_ac {| container := win_c |}
           win_c win_a win_a Hnot); reflexivity.
Defined.

(** After the focus moved from A to the floating F, the bottom window is A. *)
Lemma bottom_is_tiled_or_none_witness :
  reachable flaky world_af
  /\ bottom_win (self world_af) = Some win_a
  /\ bottom_tiled (self world_af).
Proof.
  split; [apply reachable_world_af|]. split; [reflexivity|].
  apply (bottom_is_tiled_or_none flaky world_af reachable_world_af).
Defined.

(** C3 without its restriction to real fades does not hold.  In [world_ab]
    the fade of A from [CON_AC] to [CON_INAC] is in flight.  The second
    request [add_fade(A, 0.5, 1.0, 0)] collapses to an immediate command:
    afterwards the one entry for A is still that of the first request,
    and no entry for A has the start and target of the second. *)
Lemma second_request_immediate_keeps_first :
  let first := new_fade win_a CON_AC CON_INAC CON_OUT in
  let W' := (add_fade reliable (Some win_a) (1 # 2) 1%Q (Some 0%Q) world_ab).2 in
  reachable flaky world_ab
  /\ dict_get (id win_a) (fade_queue (self world_ab)) = Some first
  /\ dict_get (id win_a) (fade_queue (self W')) = Some first
  /\ ~ (exists f, dict_get (id win_a) (fade_queue (self W')) = Some f
                 /\ opacity f == 1 # 2 /\ target f == 1%Q).
Proof.
  cbv zeta. split; [apply reachable_world_ab|].
  split; [reflexivity|]. split; [reflexivity|].
  intros (f & Hf & Ho & _). injection Hf as <-. discriminate Ho.
Qed.

(** While A fades out, a request to fade it back in replaces the entry. *)
Lemma one_fade_per_window_witness :
  reachable flaky world_ab
  /\ dict_get (id win_a) (fade_queue (self world_ab)) =
     Some (new_fade win_a CON_AC CON_INAC CON_OUT)
  /\ let q' := fade_queue
                 (self (add_fade flaky (Some win_a) CON_INAC CON_AC
                          (Some BOT_IN) world_ab).2) in
     dict_get (id win_a) q' = Some (new_fade win_a CON_INAC CON_AC BOT_IN)
     /\ entries (id win_a) q' = 1%nat
     /\ NoDup (keys q').
Proof.
  split; [apply reachable_world_ab|]. split; [reflexivity|].
  destruct (one_fade_per_window flaky world_ab win_a CON_INAC CON_AC
              (Some BOT_IN) reachable_world_ab) as (_ & Hnd & Hfade & _).
  destruct (Hfade BOT_IN eq_refl) as (Hget & Hone & _); [discriminate..|].
  cbv zeta. repeat split; assumption.
Defined.

(** The fade of B queued by the focus change from A to B. *)
Lemma fade_converges_monotonically_witness :
  let f := new_fade win_b CON_INAC CON_AC CON_IN in
  wf_queue (fade_queue (self world_ab))
  /\ dict_get 2 (fade_queue (self world_ab)) = Some f
  /\ ~ change f == 0
  /\ wf_queue (fade_queue (self (fader_iteration flaky world_ab).2))
  /\ exists N,
       (forall m, (m < N)%nat ->
          is_Some (dict_get 2
                     (fade_queue (self (fader_loop flaky m world_ab).2))))
       /\ dict_get 2 (fade_queue (self (fader_loop flaky N world_ab).2)) = None.
Proof.
  cbv zeta.
  assert (Hwf : wf_queue (fade_queue (self world_ab))).
  { apply (reachable_wf_queue flaky), reachable_world_ab. }
  assert (Hc : ~ change (new_fade win_b CON_INAC CON_AC CON_IN) == 0)
    by discriminate.
  split; [exact Hwf|]. split; [reflexivity|]. split; [exact Hc|].
  destruct (fade_converges_monotonically flaky world_ab 2
              (new_fade win_b CON_INAC CON_AC CON_IN) Hwf eq_refl Hc)
    as (_ & Hwf' & Hgone).
  split; assumption.
Defined.

(** A fade over [CON_IN] = 0.15 s at [FRAME_T] = 0.01 s takes 15 iterations. *)
Lemma fade_completes_in_ceiling_ticks_witness :
  wf_queue (fade_queue (self world_a))
  /\ (0 < CON_IN)%Q
  /\ ~ CON_INAC == CON_AC
  /\ Z.to_nat (Qceiling (CON_IN / FRAME_T)) = 15%nat
  /\ let W1 := (add_fade flaky (Some win_b) CON_INAC CON_AC (Some CON_IN)
                  world_a).2 in
     (forall m, (m < 15)%nat ->
        is_Some (dict_get 2 (fade_queue (self (fader_loop flaky m W1).2))))
     /\ dict_get 2 (fade_queue (self (fader_loop flaky 15 W1).2)) = None.
Proof.
  assert (Hwf : wf_queue (fade_queue (self world_a))).
  { apply (reachable_wf_queue flaky), reachable_world_a. }
  assert (Hd : (0 < CON_IN)%Q) by reflexivity.
  assert (Hst : ~ CON_INAC == CON_AC) by discriminate.
  split; [exact Hwf|]. split; [exact Hd|]. split; [exact Hst|].
  split; [reflexivity|].
  destruct (fade_completes_in_ceiling_ticks flaky world_a win_b
              CON_INAC CON_AC CON_IN Hwf Hd Hst) as (_ & Hlive & Hgone).
  split; [exact Hlive|exact Hgone].
Defined.

(** * Further properties of the handlers *)

Lemma toggled_twice (cid : Z) (fw : gset Z) : toggled cid (toggled cid fw) = fw.
Proof.
  unfold toggled. destruct (decide (cid ∈ fw)) as [Hin|Hnot].
  - rewrite (bool_decide_eq_true_2 _ Hin).
    rewrite bool_decide_eq_false_2
      by (rewrite elem_of_difference, elem_of_singleton; tauto).
    apply set_eq. intros x.
    rewrite elem_of_union, elem_of_difference, elem_of_singleton.
    split; [intros [->|[? _]]; assumption|].
    intros Hx. destruct (decide (x = cid)); [left|right]; tauto.
  - rewrite (bool_decide_eq_false_2 _ Hnot).
    rewrite bool_decide_eq_true_2
      by (rewrite elem_of_union, elem_of_singleton; tauto).
    apply set_eq. intros x.
    rewrite elem_of_difference, elem_of_union, elem_of_singleton.
    split; [intros [[->|?] ?]; [contradiction|assumption]|].
    intros Hx. split; [right; exact Hx|]. intros ->. contradiction.
Qed.

Section Handlers.

Variable port : list IO -> Con -> Q -> option string.

(** X1. When the active window is tiled, the newly focused one is not, and
    their identifiers differ, the handler returns having queued the fade of
    the new window from [FLOAT_INAC] to [FLOAT_AC] over [FLOAT_IN] and then
    that of the old one from [CON_AC] to [BOT_INAC] over [BOT_OUT]; the old
    window is the bottom window, the new one is active, the worker runs and
    nothing was sent. *)
Theorem focus_tiled_to_floating (W : World) (e : WindowEvent) (old : Con) :
  active_win (self W) = Some old ->
  id old <> id (container e) ->
  type old = "con" ->
  type (container e) <> "con" ->
  let new := container e in
  on_window_focus port e W =
  (Return tt,
   {| self :=
        {| floating_windows := floating_windows (self W);
           fade_queue :=
             dict_set (id old) (new_fade old CON_AC BOT_INAC BOT_OUT)
               (dict_set (id new) (new_fade new FLOAT_INAC FLOAT_AC FLOAT_IN)
                  (fade_queue (self W)));
           fader_running := true;
           bottom_win := Some old;
           old_win := old_win (self W);
           active_win := Some new |};
      trace := trace W |}).
Proof.
  intros Ha Hid Hold Hnew new.
  assert (Ho : is_con old = true) by (apply String.eqb_eq, Hold).
  assert (Hn : is_con new = false) by (apply String.eqb_neq, Hnew).
  unfold on_window_focus. rewrite bind_gets, Ha.
  apply Z.eqb_neq in Hid. rewrite Hid. fold new. rewrite Ho, Hn.
  cbn [andb negb].
  repeat first
    [ rewrite bind_assoc
    | erewrite bind_Return by (apply add_fade_fade; discriminate) ].
  reflexivity.
Qed.

(** X2. When neither the active window nor the newly focused one is tiled
    and their identifiers differ, the handler returns having queued the
    fade of the old window from [FLOAT_AC] to [FLOAT_INAC] over
    [FLOAT_OUT] and then that of the new one from [FLOAT_INAC] to
    [FLOAT_AC] over [FLOAT_IN]; the bottom window is as before, the new
    window is active and nothing was sent. *)
Theorem focus_floating_to_floating (W : World) (e : WindowEvent) (old : Con) :
  active_win (self W) = Some old ->
  id old <> id (container e) ->
  type old <> "con" ->
  type (container e) <> "con" ->
  let new := container e in
  on_window_focus port e W =
  (Return tt,
   {| self :=
        {| floating_windows := floating_windows (self W);
           fade_queue :=
             dict_set (id new) (new_fade new FLOAT_INAC FLOAT_AC FLOAT_IN)
               (dict_set (id old) (new_fade old FLOAT_AC FLOAT_INAC FLOAT_OUT)
                  (fade_queue (self W)));
           fader_running := true;
           bottom_win := bottom_win (self W);
           old_win := old_win (self W);
           active_win := Some new |};
      trace := trace W |}).
Proof.
  intros Ha Hid Hold Hnew new.
  assert (Ho : is_con old = false) by (apply String.eqb_neq, Hold).
  assert (Hn : is_con new = false) by (apply String.eqb_neq, Hnew).
  unfold on_window_focus. rewrite bind_gets, Ha.
  apply Z.eqb_neq in Hid. rewrite Hid. fold new. rewrite Ho, Hn.
  cbn [andb negb].
  repeat first
    [ rewrite bind_assoc
    | erewrite bind_Return by (apply add_fade_fade; discriminate) ].
  reflexivity.
Qed.

(** Run straight-line handler code symbolically. *)
Ltac exec :=
  repeat first
    [ rewrite bind_assoc
    | rewrite bind_gets
    | rewrite bind_modify
    | rewrite bind_ret
    | rewrite bind_change_opacity
    | rewrite change_opacity_run
    | progress cbn [self trace active_win old_win bottom_win floating_windows
                    fade_queue fader_running set_floating_windows
                    set_fade_queue set_fader_running set_bottom_win
                    set_old_win set_active_win negb andb orb attr] ].

(** Close a goal about the commands of an explicit piece of trace. *)
Ltac cmds :=
  repeat first
    [ rewrite commands_app
    | rewrite commands_caught
    | progress cbn [commands omap list_omap app] ];
  try reflexivity.

(** X3. A focus event for the identifier of the active window does nothing,
    whatever type the event reports: the world, including the recorded
    active container, is unchanged. *)
Theorem focus_on_active_is_noop (W : World) (e : WindowEvent) (old : Con) :
  active_win (self W) = Some old ->
  id old = id (container e) ->
  on_window_focus port e W = (Return tt, W).
Proof.
  intros Ha Hid. unfold on_window_focus. rewrite bind_gets, Ha.
  apply Z.eqb_eq in Hid. rewrite Hid. reflexivity.
Qed.

(** X4. [on_window_new] always returns.  It leaves the fade queue, the
    running flag and [floating_windows] alone, records the active window
    it found as the previous one and the new container as the active one,
    keeps a bottom window it found or else adopts a tiled active window as
    the bottom, and sends, in this order: the active window to its inactive
    baseline, the bottom window (found or adopted) to [CON_INAC], the new
    container to [CON_AC]. *)
Theorem new_window_effect (W : World) (e : WindowEvent) :
  let a := active_win (self W) in
  let b := bottom_win (self W) in
  exists out,
    on_window_new port e W =
    (Return tt,
     {| self :=
          {| floating_windows := floating_windows (self W);
             fade_queue := fade_queue (self W);
             fader_running := fader_running (self W);
             bottom_win := new_window_bottom a b;
             old_win := a;
             active_win := Some (container e) |};
        trace := trace W ++ out |})
    /\ commands out = new_window_commands a b (container e).
Proof.
  destruct W as [[fw q r b o a] tr]. cbn [self active_win bottom_win].
  unfold on_window_new, new_window_commands, new_window_bottom.
  destruct a as [act|]; [destruct (is_con act) eqn:Ea|];
    destruct b as [bot|]; exec; rewrite ?Ea; exec; unfold modify; exec;
    rewrite <- ?app_assoc; (eexists; split; [reflexivity|]); cmds.
Qed.

(** X5. A floating event handled while no active window is recorded raises
    [AttributeError], after the membership of the identifier in
    [floating_windows] has been toggled: that change stays, nothing else
    is changed and nothing is sent. *)
Theorem floating_without_active_raises (W : World) (e : WindowEvent) :
  active_win (self W) = None ->
  on_window_floating port e W =
  (Raise "AttributeError",
   {| self :=
        set_floating_windows
          (toggled (id (container e)) (floating_windows (self W))) (self W);
      trace := trace W |}).
Proof.
  intros Ha. destruct W as [[fw q r b o a] tr]. cbn in Ha. subst a.
  unfold on_window_floating, toggled. exec.
  destruct (bool_decide (id (container e) ∈ fw)); exec; reflexivity.
Qed.

Lemma floating_event_run (W : World) (e : WindowEvent) (act : Con) :
  active_win (self W) = Some act ->
  let W' := (on_window_floating port e W).2 in
  (on_window_floating port e W).1 = Return tt
  /\ floating_windows (self W') =
     toggled (id (container e)) (floating_windows (self W))
  /\ active_win (self W') = Some (container e)
  /\ fade_queue (self W') = fade_queue (self W)
  /\ fader_running (self W') = fader_running (self W)
  /\ old_win (self W') = old_win (self W).
Proof.
  intros Ha. destruct W as [[fw q r b o a] tr]. cbn in Ha. subst a.
  unfold on_window_floating, toggled. exec.
  destruct (bool_decide (id (container e) ∈ fw)); exec;
    destruct (Z.eqb (id act) (id (container e))); exec;
    try (destruct o as [old|]; [destruct (is_con old) eqn:Eo|]);
    try (destruct b as [bot|]); exec; rewrite ?Eo; exec;
    unfold modify; cbn; repeat split.
Qed.

(** X6. With an active window recorded, a floating event returns.  It
    toggles the membership of the identifier in [floating_windows], makes
    the event's container the active window, also when another window was
    active, and leaves the fade queue, the running flag and the previous
    window alone. *)
Theorem floating_event_effect (W : World) (e : WindowEvent) (act : Con) :
  active_win (self W) = Some act ->
  let W' := (on_window_floating port e W).2 in
  (on_window_floating port e W).1 = Return tt
  /\ floating_windows (self W') =
     toggled (id (container e)) (floating_windows (self W))
  /\ active_win (self W') = Some (container e)
  /\ fade_queue (self W') = fade_queue (self W)
  /\ fader_running (self W') = fader_running (self W)
  /\ old_win (self W') = old_win (self W).
Proof.
  intros Ha. destruct W as [[fw q r b o a] tr]. cbn in Ha. subst a.
  unfold on_window_floating, toggled. exec.
  destruct (bool_decide (id (container e) ∈ fw)); exec;
    destruct (Z.eqb (id act) (id (container e))); exec;
    try (destruct o as [old|]; [destruct (is_con old) eqn:Eo|]);
    try (destruct b as [bot|]); exec; rewrite ?Eo; exec;
    unfold modify; cbn; repeat split.
Qed.

(** X7. A floating event for a window other than the active one sends
    exactly one command, to the event's container: [FLOAT_INAC] when the
    identifier was not in [floating_windows], [CON_INAC] when it was.  The
    bottom window is unchanged. *)
Theorem floating_toggle_of_inactive (W : World) (e : WindowEvent) (act : Con) :
  active_win (self W) = Some act ->
  id act <> id (container e) ->
  let c := container e in
  exists out,
    on_window_floating port e W =
    (Return tt,
     {| self :=
          set_active_win (Some c)
            (set_floating_windows (toggled (id c) (floating_windows (self W)))
               (self W));
        trace := trace W ++ out |})
    /\ commands out =
       [(c, if bool_decide (id c ∈ floating_windows (self W))
            then CON_INAC else FLOAT_INAC)].
Proof.
  intros Ha Hid c. destruct W as [[fw q r b o a] tr]. cbn in Ha. subst a.
  apply Z.eqb_neq in Hid. subst c.
  unfold on_window_floating, toggled. exec.
  destruct (bool_decide (id (container e) ∈ fw)); exec; rewrite Hid; exec;
    unfold modify; exec; (eexists; split; [reflexivity|]); cmds.
Qed.

(** X8. When the active window leaves [floating_windows], the handler sends
    the previous window to [CON_INAC] if there is one and it is tiled, and
    then the recorded active container to [CON_AC]; the identifier is
    removed from [floating_windows], the bottom window is unchanged and the
    event's container is the active window. *)
Theorem floating_untoggle_of_active (W : World) (e : WindowEvent) (act : Con) :
  id (container e) ∈ floating_windows (self W) ->
  active_win (self W) = Some act ->
  id act = id (container e) ->
  let c := container e in
  exists out,
    on_window_floating port e W =
    (Return tt,
     {| self :=
          set_active_win (Some c)
            (set_floating_windows (floating_windows (self W) ∖ {[ id c ]})
               (self W));
        trace := trace W ++ out |})
    /\ commands out =
       match old_win (self W) with
       | Some old => if is_con old then [(old, CON_INAC)] else []
       | None => []
       end ++ [(act, CON_AC)].
Proof.
  intros Hin Ha Hid c. destruct W as [[fw q r b o a] tr].
  cbn in Hin, Ha. subst a. apply Z.eqb_eq in Hid. subst c.
  unfold on_window_floating. exec.
  rewrite bool_decide_eq_true_2 by exact Hin. exec. rewrite Hid. exec.
  destruct o as [old|]; [destruct (is_con old) eqn:Eo|]; exec;
    unfold modify; exec; rewrite <- ?app_assoc;
    (eexists; split; [reflexivity|]); cmds.
Qed.

(** X9. When the active window enters [floating_windows] and a previous or
    a bottom window is missing, only the event's container is sent a
    command, [FLOAT_AC], and the bottom window is unchanged.  When both
    are recorded but the previous window is not tiled, the bottom window
    is kept and sent [BOT_INAC] before that. *)
Theorem floating_toggle_of_active_keeps_bottom
  (W : World) (e : WindowEvent) (act : Con) :
  id (container e) ∉ floating_windows (self W) ->
  active_win (self W) = Some act ->
  id act = id (container e) ->
  match old_win (self W) with
  | Some old => is_con old = false
  | None => True
  end ->
  let c := container e in
  exists out,
    on_window_floating port e W =
    (Return tt,
     {| self :=
          set_active_win (Some c)
            (set_floating_windows ({[ id c ]} ∪ floating_windows (self W))
               (self W));
        trace := trace W ++ out |})
    /\ commands out =
       match old_win (self W), bottom_win (self W) with
       | Some _, Some bot => [(bot, BOT_INAC)]
       | _, _ => []
       end ++ [(c, FLOAT_AC)].
Proof.
  intros Hnot Ha Hid Ho c. destruct W as [[fw q r b o a] tr].
  cbn in Hnot, Ha, Ho. subst a. apply Z.eqb_eq in Hid. subst c.
  unfold on_window_floating. exec.
  rewrite bool_decide_eq_false_2 by exact Hnot. exec. rewrite Hid. exec.
  destruct o as [old|]; [rewrite Ho|]; destruct b as [bot|]; exec;
    unfold modify; exec; rewrite <- ?app_assoc;
    (eexists; split; [reflexivity|]); cmds.
Qed.

(** X10. Two floating events in a row for the same identifier, with an
    active window recorded, both return and leave [floating_windows] as it
    was. *)
Theorem floating_toggle_twice (W : World) (e e' : WindowEvent) (act : Con) :
  active_win (self W) = Some act ->
  id (container e') = id (container e) ->
  let W1 := (on_window_floating port e W).2 in
  let W2 := (on_window_floating port e' W1).2 in
  (on_window_floating port e W).1 = Return tt
  /\ (on_window_floating port e' W1).1 = Return tt
  /\ floating_windows (self W2) = floating_windows (self W).
Proof.
  intros Ha Hid W1 W2.
  destruct (floating_event_run W e act Ha) as (Hr1 & Hf1 & Ha1 & _).
  fold W1 in Hf1, Ha1.
  destruct (floating_event_run W1 e' (container e) Ha1) as (Hr2 & Hf2 & _).
  fold W2 in Hf2. split; [exact Hr1|]. split; [exact Hr2|].
  rewrite Hf2, Hf1, Hid. apply toggled_twice.
Qed.

Lemma returns_ret {A} (a : A) : returns (ret a).
Proof. intros W. exists a. reflexivity. Qed.

Lemma returns_gets {A} (f : Fader -> A) : returns (gets f).
Proof. intros W. eexists. reflexivity. Qed.

Lemma returns_modify (f : Fader -> Fader) : returns (modify f).
Proof. intros W. exists tt. reflexivity. Qed.

Lemma returns_bind {A B} (m : M A) (k : A -> M B) :
  returns m -> (forall a, returns (k a)) -> returns (bind m k).
Proof.
  intros Hm Hk W. unfold bind. destruct (Hm W) as [a Ha].
  destruct (m W) as [[a'|err] W']; [apply Hk|discriminate].
Qed.

Lemma returns_add_fade (w : option Con) (s t : Q) (d : option Q) :
  returns (add_fade port w s t d).
Proof. intros W. exists tt. rewrite add_fade_ret. reflexivity. Qed.

(** X11. [on_window_focus] returns for every world and event, whatever the
    port does, and changes neither the previous window nor
    [floating_windows]: the previous window is not the window that lost
    the focus. *)
Theorem focus_returns_and_keeps_previous (W : World) (e : WindowEvent) :
  let W' := (on_window_focus port e W).2 in
  (on_window_focus port e W).1 = Return tt
  /\ old_win (self W') = old_win (self W)
  /\ floating_windows (self W') = floating_windows (self W).
Proof.
  cbv zeta. split.
  - assert (Hr : returns (on_window_focus port e)).
    { unfold on_window_focus.
      apply returns_bind; [apply returns_gets|]. intros [old|];
        [|apply returns_ret].
      destruct (Z.eqb (id old) (id (container e))); [apply returns_ret|].
      apply returns_bind; [|intros; apply returns_modify].
      destruct (is_con old), (is_con (container e)); cbn [andb negb];
        repeat first
          [ apply returns_add_fade | apply returns_modify | apply returns_gets
          | apply returns_bind; [|intros ?] ].
      match goal with |- returns (match ?x with _ => _ end) =>
        destruct x as [bot|] end; [|apply returns_add_fade].
      destruct (negb (Z.eqb (id (container e)) (id bot)));
        repeat first
          [ apply returns_add_fade | apply returns_modify
          | apply returns_bind; [|intros ?] ]. }
    destruct (Hr W) as [[] H]. exact H.
  - apply (preserves_on_window_focus port
             (fun x => old_win x = old_win (self W)
                       /\ floating_windows x = floating_windows (self W)));
      try (intros; assumption); [|split; reflexivity].
    intros w s t d. apply preserves_add_fade_roles. intros; assumption.
Qed.

Lemma preserves_fader_loop (P : Fader -> Prop) (n : nat) :
  (forall x q r, P x -> P (set_fader_running r (set_fade_queue q x))) ->
  preserves P (fader_loop port n).
Proof.
  intros HP. induction n as [|n IH]; [apply preserves_ret|].
  cbn [fader_loop]. apply preserves_bind.
  - apply preserves_fader_iteration, HP.
  - intros [|]; [exact IH|apply preserves_ret].
Qed.

(** X12. The worker loop, run for any number of iterations, never changes
    the active, previous or bottom window nor [floating_windows]. *)
Theorem fader_loop_keeps_roles (n : nat) (W : World) :
  let W' := (fader_loop port n W).2 in
  active_win (self W') = active_win (self W)
  /\ old_win (self W') = old_win (self W)
  /\ bottom_win (self W') = bottom_win (self W)
  /\ floating_windows (self W') = floating_windows (self W).
Proof.
  apply (preserves_fader_loop
           (fun x => active_win x = active_win (self W)
                     /\ old_win x = old_win (self W)
                     /\ bottom_win x = bottom_win (self W)
                     /\ floating_windows x = floating_windows (self W)));
    [intros; assumption|repeat split].
Qed.

Lemma fader_loop_break (n : nat) (W : World) :
  fade_queue (self W) = [] ->
  fader_loop port (S n) W =
  (Return tt,
   {| self := set_fader_running false (self W); trace := trace W |}).
Proof.
  intros Hq. cbn [fader_loop]. unfold fader_iteration.
  rewrite bind_assoc, bind_gets, Hq, bind_assoc, bind_modify, bind_ret.
  reflexivity.
Qed.

(** X13. On an empty queue the loop stops at once: for any positive number
    of allowed iterations it returns having cleared [fader_running] and
    nothing else, and having sent nothing. *)
Theorem fader_loop_idle (n : nat) (W : World) :
  fade_queue (self W) = [] ->
  fader_loop port (S n) W =
  (Return tt,
   {| self := set_fader_running false (self W); trace := trace W |}).
Proof.
  intros Hq. cbn [fader_loop]. unfold fader_iteration.
  rewrite bind_assoc, bind_gets, Hq, bind_assoc, bind_modify, bind_ret.
  reflexivity.
Qed.


(** ** The whole queue over time *)

Lemma tick_queue_cons (kf : Z * Fade) (q : dict) :
  tick_queue (kf :: q) =
  match fade_tick kf.2 with
  | Some g => (kf.1, g) :: tick_queue q
  | None => tick_queue q
  end.
Proof.
  unfold tick_queue, fade_tick. rewrite fmap_cons.
  destruct (fade_done (advance kf.2)) eqn:Hd.
  - apply filter_cons_False. cbn. rewrite Hd. discriminate.
  - apply filter_cons_True. exact Hd.
Qed.

Lemma entry_after_succ (n : nat) (kf : Z * Fade) :
  entry_after (S n) kf =
  entry_after n kf ≫= fun y => (fun g => (y.1, g)) <$> fade_tick y.2.
Proof.
  unfold entry_after. cbn [fade_after].
  destruct (fade_after n kf.2); reflexivity.
Qed.

Lemma tick_queue_entries (n : nat) (q : dict) :
  Nat.iter n tick_queue q = omap (entry_after n) q.
Proof.
  induction n as [|n IH].
  - cbn. induction q as [|[k f] q IHq]; [reflexivity|].
    cbn. rewrite <- IHq. reflexivity.
  - rewrite Nat.iter_succ, IH. clear IH.
    induction q as [|kf q IHq]; [reflexivity|].
    cbn [omap list_omap]. rewrite entry_after_succ.
    destruct (entry_after n kf) as [[k g]|]; cbn [mbind option_bind];
      [|exact IHq].
    rewrite tick_queue_cons. cbn [fst snd].
    destruct (fade_tick g); cbn [fmap option_fmap option_map];
      rewrite IHq; reflexivity.
Qed.

Lemma live_queue_empties (q : dict) :
  live_queue q ->
  exists N, forall n, (N <= n)%nat -> Nat.iter n tick_queue q = [].
Proof.
  unfold live_queue. induction 1 as [|kf q Hkf _ [N IH]].
  - exists 0%nat. intros n _. apply tick_queue_iter_nil.
  - destruct (fade_finishes kf.2 Hkf) as [m Hm].
    apply fade_after_done in Hm.
    exists (Nat.max N (S m)). intros n Hn.
    rewrite tick_queue_entries. cbn [omap list_omap]. unfold entry_after at 1.
    rewrite (fade_after_gone (S m) n kf.2) by (lia || exact Hm).
    cbn. rewrite <- tick_queue_entries. apply IH. lia.
Qed.

Lemma fader_loop_empties (n : nat) :
  forall W,
    NoDup (keys (fade_queue (self W))) ->
    Nat.iter n tick_queue (fade_queue (self W)) = [] ->
    fade_queue (self (fader_loop port (S n) W).2) = []
    /\ fader_running (self (fader_loop port (S n) W).2) = false.
Proof.
  induction n as [|n IH]; intros W Hnd Hq.
  - cbn in Hq. rewrite fader_loop_break by exact Hq. split; [exact Hq|reflexivity].
  - destruct (fade_queue (self W)) as [|kf q] eqn:E.
    { rewrite fader_loop_break by exact E. split; [exact E|reflexivity]. }
    remember (S n) as k. cbn [fader_loop].
    destruct (fader_iteration_frame port W) as (out & Hrun & _).
    rewrite (bind_Return _ _ _ _ _ Hrun). rewrite E. subst k.
    apply IH; cbn [self fade_queue set_fader_running set_fade_queue];
      rewrite ?E, loop_queue_tick_queue by exact Hnd.
    + apply NoDup_tick_queue. exact Hnd.
    + rewrite <- Nat.iter_succ_r. exact Hq.
Qed.

Lemma new_fade_rate (w : Con) (s t d : Q) :
  ~ d == 0 -> ~ s == t -> ~ change (new_fade w s t d) == 0.
Proof.
  intros Hd Hst. cbn [new_fade change]. intros H.
  apply Qmult_integral in H as [H|H].
  - apply Qmult_integral in H as [H|H]; [discriminate H|].
    apply Hd. rewrite <- (Qinv_involutive d), H. reflexivity.
  - apply Hst. lra.
Qed.

Lemma live_queue_dict_set (k : Z) (v : Fade) (q : dict) :
  live_queue q -> ~ change v == 0 -> live_queue (dict_set k v q).
Proof.
  unfold live_queue. intros Hq Hv. induction q as [|[k' v'] q IH]; cbn.
  - constructor; [exact Hv|constructor].
  - apply Forall_cons in Hq as [Hh Ht].
    destruct (Z.eqb k' k); constructor; auto.
Qed.

Lemma live_tick_queue (q : dict) : live_queue q -> live_queue (tick_queue q).
Proof.
  unfold live_queue, tick_queue. intros Hq. apply Forall_forall.
  intros [k f] Hin. apply list_elem_of_filter in Hin as [_ Hin].
  apply list_elem_of_fmap in Hin as ([k0 f0] & [= -> ->] & Hin).
  rewrite Forall_forall in Hq. apply (Hq _ Hin).
Qed.

Lemma reachable_live_queue (W : World) :
  reachable port W -> live_queue (fade_queue (self W)).
Proof.
  induction 1 as [l|W W' Hreach IH Hstep].
  - unfold init.
    apply (preserves_init_existing_windows port
             (fun x => live_queue (fade_queue x)) l); try (intros; assumption).
    constructor.
  - destruct Hstep as [ev e W|W _].
    + apply (preserves_dispatch port (fun x => live_queue (fade_queue x)));
        try (intros; assumption).
      intros [w|] s t d W0 H0; [|exact H0].
      destruct d as [d|];
        [|cbn [add_fade]; rewrite change_opacity_run; exact H0].
      destruct (Qeq_bool d 0) eqn:Ed.
      { rewrite add_fade_immediate by (left; apply Qeq_bool_eq, Ed).
        rewrite change_opacity_run. exact H0. }
      destruct (Qeq_bool s t) eqn:Est.
      { rewrite add_fade_immediate by (right; apply Qeq_bool_eq, Est).
        rewrite change_opacity_run. exact H0. }
      apply Qeq_bool_neq in Ed, Est. rewrite add_fade_fade by assumption.
      apply live_queue_dict_set; [exact H0|apply new_fade_rate; assumption].
    + rewrite fader_iteration_queue
        by apply (reachable_wf_queue port W Hreach).
      apply live_tick_queue, IH.
Qed.

(** X15. From every reachable world the worker, left to itself, finishes:
    after some number of iterations the fade queue is empty and
    [fader_running] is cleared. *)
Theorem all_fades_finish (W : World) :
  reachable port W ->
  exists N,
    fade_queue (self (fader_loop port N W).2) = []
    /\ fader_running (self (fader_loop port N W).2) = false.
Proof.
  intros Hreach.
  destruct (live_queue_empties _ (reachable_live_queue W Hreach)) as [N HN].
  exists (S N). apply fader_loop_empties.
  - apply (reachable_wf_queue port W Hreach).
  - apply HN. lia.
Qed.

(** X16. A real fade request for a window that already has an entry keeps
    the order of the queue; for a window without an entry the new entry
    goes last.  The loop sends its commands in this order. *)
Theorem add_fade_keeps_order (W : World) (w : Con) (s t d : Q) :
  ~ d == 0 ->
  ~ s == t ->
  let q := fade_queue (self W) in
  let q' := fade_queue (self (add_fade port (Some w) s t (Some d) W).2) in
  keys q' = (if bool_decide (id w ∈ keys q) then keys q else keys q ++ [id w]).
Proof.
  intros Hd Hst. cbv zeta. rewrite add_fade_fade by assumption.
  apply keys_dict_set.
Qed.

Local Open Scope Q_scope.

Lemma fade_after_short (n : nat) (f g : Fade) :
  fade_after (S n) f = Some g -> fade_done g = false.
Proof.
  cbn [fade_after]. destruct (fade_after n f) as [h|]; [|discriminate].
  cbn [mbind option_bind]. unfold fade_tick.
  destruct (fade_done (advance h)) eqn:Hd; [discriminate|].
  intros [= <-]. exact Hd.
Qed.

(** X17. While a fade requested with a positive duration is queued, its
    opacity after [m] iterations is [start + m * rate], and it lies between
    start and target: from the start inclusive up to, but short of, the
    target.  Target and window of the entry never change. *)
Theorem new_fade_interpolates (W : World) (w : Con) (s t d : Q) :
  wf_queue (fade_queue (self W)) ->
  0 < d ->
  ~ s == t ->
  let W1 := (add_fade port (Some w) s t (Some d) W).2 in
  forall m g,
    dict_get (id w) (fade_queue (self (fader_loop port m W1).2)) = Some g ->
    target g = t /\ win g = w
    /\ opacity g == s + inject_Z (Z.of_nat m) * (FRAME_T / d * (t - s))
    /\ (s < t -> s <= opacity g /\ opacity g < t)
    /\ (t < s -> t < opacity g /\ opacity g <= s).
Proof.
  intros Hwf Hd Hst W1 m g Hg.
  assert (Hd0 : ~ d == 0) by lra.
  assert (Hq1 : fade_queue (self W1) =
                dict_set (id w) (new_fade w s t d) (fade_queue (self W))).
  { subst W1. rewrite add_fade_fade by assumption. reflexivity. }
  assert (Hnd1 : NoDup (keys (fade_queue (self W1)))).
  { rewrite Hq1. apply NoDup_dict_set, Hwf. }
  rewrite fader_loop_queue in Hg by exact Hnd1.
  rewrite (dict_get_tick_iter _ _ _ (new_fade w s t d)) in Hg;
    [|exact Hnd1|rewrite Hq1; apply dict_get_set_eq].
  pose proof (fade_after_Some _ _ _ Hg) as Eg.
  destruct (advance_iter m (new_fade w s t d)) as (Ec & Et & Ew & Eo).
  rewrite <- Eg in Ec, Et, Ew, Eo. cbn [new_fade change target win opacity] in *.
  split; [exact Et|]. split; [exact Ew|]. split; [exact Eo|].
  assert (HM : 0 <= inject_Z (Z.of_nat m)).
  { change 0 with (inject_Z 0). rewrite <- Zle_Qle. lia. }
  set (M := inject_Z (Z.of_nat m)) in *.
  set (r := FRAME_T / d) in *.
  assert (Hr : 0 < r) by (apply Qlt_shift_div_l; [exact Hd|reflexivity]).
  destruct m as [|m].
  - assert (HM0 : M == 0) by reflexivity. split; intros; split; nra.
  - apply fade_after_short in Hg.
    assert (Hn : ~ ((0 < change g /\ target g <= opacity g)
                    \/ (change g < 0 /\ opacity g <= target g))).
    { intros H. apply fade_done_true in H. congruence. }
    rewrite Ec, Et in Hn.
    split; intros Hlt.
    + assert (0 < r * (t - s)) by nra.
      split; [nra|]. apply Qnot_le_lt. intros ?. apply Hn. left. tauto.
    + assert (r * (t - s) < 0) by nra.
      split; [|nra]. apply Qnot_le_lt. intros ?. apply Hn. right. tauto.
Qed.

Local Open Scope Z_scope.

(** ** Start-up *)

Lemma init_window_run (w : Con) (W : World) :
  let W1 := (init_window port w W).2 in
  init_window port w W = (Return tt, W1)
  /\ commands (trace W1) =
     commands (trace W) ++ (if eligible w then [(w, baseline w)] else [])
  /\ floating_windows (self W1) =
     (if eligible w && floating w
      then {[ id w ]} ∪ floating_windows (self W)
      else floating_windows (self W))
  /\ active_win (self W1) =
     (if eligible w && focused w then Some w else active_win (self W))
  /\ fade_queue (self W1) = fade_queue (self W)
  /\ fader_running (self W1) = fader_running (self W)
  /\ bottom_win (self W1) = bottom_win (self W)
  /\ old_win (self W1) = old_win (self W).
Proof.
  destruct W as [[fw q r b o a] tr]. unfold init_window, baseline.
  change (String.eqb (type w) "con" || String.eqb (type w) "floating_con")
    with (eligible w).
  destruct (eligible w), (floating w), (focused w); exec;
    cbn [snd self trace floating_windows active_win fade_queue fader_running
         bottom_win old_win andb];
    repeat split; try (rewrite app_nil_r; reflexivity); cmds.
Qed.

(** X18. [init_existing_windows] returns; it sends one command to each
    window of type "con" or "floating_con", in tree order, carrying the
    baseline for its floating and focused flags, and none to the others;
    it adds the identifiers of the floating ones among them to
    [floating_windows], records the last focused one, if any, as the
    active window, and leaves the fade queue, the running flag, the bottom
    and the previous window alone. *)
Theorem init_existing_windows_effect (l : list Con) (W : World) :
  let W' := (init_existing_windows port l W).2 in
  (init_existing_windows port l W).1 = Return tt
  /\ commands (trace W') =
     commands (trace W)
     ++ ((fun w => (w, baseline w)) <$> filter (fun w => eligible w = true) l)
  /\ (forall x,
        x ∈ floating_windows (self W') <->
        x ∈ floating_windows (self W)
        \/ exists w, w ∈ l /\ eligible w = true /\ floating w = true
                      /\ id w = x)
  /\ active_win (self W') =
     match last (filter (fun w => eligible w && focused w = true) l) with
     | Some w => Some w
     | None => active_win (self W)
     end
  /\ fade_queue (self W') = fade_queue (self W)
  /\ fader_running (self W') = fader_running (self W)
  /\ bottom_win (self W') = bottom_win (self W)
  /\ old_win (self W') = old_win (self W).
Proof.
  unfold init_existing_windows. revert W.
  induction l as [|w l IH]; intros W; cbn [for_each].
  - cbn. rewrite app_nil_r. repeat split; try tauto.
    + intros [H|(w & Hw & _)]; [exact H|]. apply elem_of_nil in Hw. contradiction.
  - destruct (init_window_run w W)
      as (Hrun & Hc & Hf & Ha & Hq & Hr & Hb & Ho).
    set (W1 := (init_window port w W).2) in *.
    rewrite (bind_Return _ _ _ _ _ Hrun).
    destruct (IH W1) as (Hret & Hc' & Hf' & Ha' & Hq' & Hr' & Hb' & Ho').
    split; [exact Hret|]. split; [|split; [|split]].
    + rewrite Hc', Hc, <- app_assoc. f_equal.
      destruct (eligible w) eqn:E.
      * rewrite filter_cons_True by exact E. reflexivity.
      * rewrite filter_cons_False by (rewrite E; discriminate). reflexivity.
    + intros x. rewrite Hf', Hf. split.
      * intros [H|(v & Hv & Hev & Hfv & Hid)].
        -- destruct (eligible w && floating w) eqn:E; [|left; exact H].
           apply andb_true_iff in E as [E1 E2].
           apply elem_of_union in H as [H|H]; [|left; exact H].
           apply elem_of_singleton in H. right. exists w.
           split; [apply list_elem_of_here|]. auto.
        -- right. exists v. split; [apply list_elem_of_further, Hv|]. auto.
      * intros [H|(v & Hv & Hev & Hfv & Hid)].
        -- left. destruct (eligible w && floating w); [|exact H].
           apply elem_of_union. right. exact H.
        -- apply elem_of_cons in Hv as [->|Hv].
           ++ left. rewrite Hev, Hfv. cbn [andb].
              apply elem_of_union. left. apply elem_of_singleton. auto.
           ++ right. exists v. auto.
    + rewrite Ha', Ha.
      destruct (eligible w && focused w) eqn:E.
      * rewrite filter_cons_True by exact E. rewrite last_cons.
        destruct (last _); reflexivity.
      * rewrite filter_cons_False by (rewrite E; discriminate). reflexivity.
    + rewrite Hq', Hr', Hb', Ho'. auto.
Qed.

End Handlers.

(** * The further properties at work *)

(** The focus moves from the tiled A to the floating F. *)
Lemma focus_tiled_to_floating_witness :
  active_win (self world_a) = Some win_a
  /\ fade_queue (self world_af) =
     [(3, new_fade win_f FLOAT_INAC FLOAT_AC FLOAT_IN);
      (1, new_fade win_a CON_AC BOT_INAC BOT_OUT)]
  /\ bottom_win (self world_af) = Some win_a
  /\ active_win (self world_af) = Some win_f.
Proof.
  split; [reflexivity|].
  pose proof (focus_tiled_to_floating flaky world_a {| container := win_f |}
                win_a) as H.
  unfold world_af. cbn [dispatch]. rewrite H;
    [repeat split|reflexivity|discriminate|reflexivity|discriminate].
Defined.

(** With F active, the focus moves to the floating G. *)
Lemma focus_floating_to_floating_witness :
  active_win (self world_af) = Some win_f
  /\ (on_window_focus flaky {| container := win_g |} world_af).1 = Return tt
  /\ bottom_win (self (on_window_focus flaky {| container := win_g |}
                         world_af).2) = Some win_a
  /\ active_win (self (on_window_focus flaky {| container := win_g |}
                         world_af).2) = Some win_g.
Proof.
  split; [reflexivity|].
  rewrite (focus_floating_to_floating flaky world_af {| container := win_g |}
             win_f); [repeat split|reflexivity|discriminate..].
Defined.

(** A focus event for A, the active window, that reports it as floating. *)
Lemma focus_on_active_is_noop_witness :
  let e := {| container :=
                {| id := 1; type := "floating_con"; name := Some "A";
                   floating := true; focused := true |} |} in
  active_win (self world_a) = Some win_a
  /\ on_window_focus flaky e world_a = (Return tt, world_a).
Proof.
  cbv zeta. split; [reflexivity|].
  apply (focus_on_active_is_noop flaky world_a _ win_a); reflexivity.
Defined.

(** A floating event before any window is active. *)
Lemma floating_without_active_raises_witness :
  active_win (self world0) = None
  /\ (on_window_floating flaky {| container := win_a |} world0).1 =
     Raise "AttributeError"
  /\ floating_windows
       (self (on_window_floating flaky {| container := win_a |} world0).2) =
     toggled 1 ∅.
Proof.
  split; [reflexivity|].
  rewrite (floating_without_active_raises flaky world0 {| container := win_a |}
             eq_refl).
  split; reflexivity.
Defined.

(** With A active, the inactive B toggles. *)
Lemma floating_event_effect_witness :
  active_win (self world_a) = Some win_a
  /\ (on_window_floating flaky {| container := win_b |} world_a).1 = Return tt
  /\ active_win
       (self (on_window_floating flaky {| container := win_b |} world_a).2) =
     Some win_b.
Proof.
  split; [reflexivity|].
  destruct (floating_event_effect flaky world_a {| container := win_b |}
              win_a eq_refl) as (Hr & _ & Ha & _).
  split; assumption.
Defined.

Lemma floating_toggle_of_inactive_witness :
  active_win (self world_a) = Some win_a
  /\ id win_a <> id win_b
  /\ exists out,
       trace (on_window_floating flaky {| container := win_b |} world_a).2 =
       trace world_a ++ out
       /\ commands out = [(win_b, FLOAT_INAC)].
Proof.
  assert (Hne : id win_a <> id win_b) by discriminate.
  split; [reflexivity|]. split; [exact Hne|].
  destruct (floating_toggle_of_inactive flaky world_a {| container := win_b |}
              win_a eq_refl Hne) as (out & Hrun & Hout).
  exists out. rewrite Hrun. split; [reflexivity|exact Hout].
Defined.

(** The floating F, active, toggles back to tiled. *)
Lemma floating_untoggle_of_active_witness :
  (id win_f ∈ floating_windows (self world_af))
  /\ active_win (self world_af) = Some win_f
  /\ exists out,
       trace (on_window_floating flaky {| container := win_f |} world_af).2 =
       trace world_af ++ out
       /\ commands out = [(win_f, CON_AC)].
Proof.
  assert (Hin : id win_f ∈ floating_windows (self world_af)).
  { apply (bool_decide_eq_true_1 _). vm_compute. reflexivity. }
  split; [exact Hin|]. split; [reflexivity|].
  destruct (floating_untoggle_of_active flaky world_af {| container := win_f |}
              win_f Hin eq_refl eq_refl) as (out & Hrun & Hout).
  exists out. rewrite Hrun. split; [reflexivity|exact Hout].
Defined.

(** A, active with no previous window recorded, toggles to floating. *)
Lemma floating_toggle_of_active_keeps_bottom_witness :
  (id win_a ∉ floating_windows (self world_a))
  /\ active_win (self world_a) = Some win_a
  /\ old_win (self world_a) = None
  /\ exists out,
       trace (on_window_floating flaky {| container := win_a |} world_a).2 =
       trace world_a ++ out
       /\ commands out = [(win_a, FLOAT_AC)].
Proof.
  assert (Hnot : id win_a ∉ floating_windows (self world_a)).
  { apply (bool_decide_eq_false_1 _). vm_compute. reflexivity. }
  split; [exact Hnot|]. split; [reflexivity|]. split; [reflexivity|].
  destruct (floating_toggle_of_active_keeps_bottom flaky world_a
              {| container := win_a |} win_a Hnot eq_refl eq_refl I)
    as (out & Hrun & Hout).
  exists out. rewrite Hrun. split; [reflexivity|exact Hout].
Defined.

Lemma floating_toggle_twice_witness :
  active_win (self world_a) = Some win_a
  /\ floating_windows
       (self (on_window_floating flaky {| container := win_b |}
                (on_window_floating flaky {| container := win_b |}
                   world_a).2).2) =
     floating_windows (self world_a).
Proof.
  split; [reflexivity|].
  apply (floating_toggle_twice flaky world_a {| container := win_b |}
           {| container := win_b |} win_a); reflexivity.
Defined.

Lemma fader_loop_idle_witness :
  fade_queue (self world_a) = []
  /\ fader_loop flaky 3 world_a =
     (Return tt,
      {| self := set_fader_running false (self world_a);
         trace := trace world_a |}).
Proof.
  split; [reflexivity|]. apply (fader_loop_idle flaky 2 world_a). reflexivity.
Defined.


Lemma all_fades_finish_witness :
  reachable flaky world_ab
  /\ exists N,
       fade_queue (self (fader_loop flaky N world_ab).2) = []
       /\ fader_running (self (fader_loop flaky N world_ab).2) = false.
Proof.
  split; [apply reachable_world_ab|].
  apply (all_fades_finish flaky world_ab reachable_world_ab).
Defined.

(** While B and A fade, a new fade for B keeps B first in the queue. *)
Lemma add_fade_keeps_order_witness :
  ~ BOT_IN == 0
  /\ ~ CON_AC == CON_INAC
  /\ keys (fade_queue (self world_ab)) = [2; 1]
  /\ keys (fade_queue
             (self (add_fade flaky (Some win_b) CON_AC CON_INAC (Some BOT_IN)
                      world_ab).2)) = [2; 1].
Proof.
  assert (Hd : ~ BOT_IN == 0) by discriminate.
  assert (Hst : ~ CON_AC == CON_INAC) by discriminate.
  split; [exact Hd|]. split; [exact Hst|]. split; [reflexivity|].
  rewrite (add_fade_keeps_order flaky world_ab win_b CON_AC CON_INAC BOT_IN
             Hd Hst).
  reflexivity.
Defined.

(** The fade of B over [CON_IN], three iterations in. *)
Lemma new_fade_interpolates_witness :
  let W1 := (add_fade flaky (Some win_b) CON_INAC CON_AC (Some CON_IN)
               world_a).2 in
  wf_queue (fade_queue (self world_a))
  /\ (0 < CON_IN)%Q
  /\ ~ CON_INAC == CON_AC
  /\ forall g,
       dict_get 2 (fade_queue (self (fader_loop flaky 3 W1).2)) = Some g ->
       (CON_INAC <= opacity g /\ opacity g < CON_AC)%Q.
Proof.
  cbv zeta.
  assert (Hwf : wf_queue (fade_queue (self world_a))).
  { apply (reachable_wf_queue flaky), reachable_world_a. }
  assert (Hd : (0 < CON_IN)%Q) by reflexivity.
  assert (Hst : ~ CON_INAC == CON_AC) by discriminate.
  split; [exact Hwf|]. split; [exact Hd|]. split; [exact Hst|].
  intros g Hg.
  destruct (new_fade_interpolates flaky world_a win_b CON_INAC CON_AC CON_IN
              Hwf Hd Hst 3%nat g Hg) as (_ & _ & _ & Hup & _).
  apply Hup. reflexivity.
Defined.
